(** * Prediction aggregation and scoring: interval clock, settlement
      scoring, dispatch and rate limit

    A shallow embedding of [neurons/deprecated_validator.py]
    ([Validator.on_event_update], [Validator.forward]) and of
    [infinite_games/sandbox/validator/tasks/query_miners.py]
    ([QueryMiners]).

    Conventions.
    - A [datetime] is an integer number of microseconds since
      [CLUSTER_EPOCH_2024] (the resolution of Python's [datetime]); minute
      counters and interval starts are integers ([Z]).
    - Python's [float] values (scores, [time.time()]) are read as real
      numbers ([R]); [math.exp] and [torch.exp] are [exp].  Rounding,
      overflow and underflow of the machine formats are outside this model.
    - Python dictionaries are finite maps ([gmap]); iteration over one
      follows [map_to_list], whose order the properties below do not
      depend on.
    - Calls to collaborators (the store, the metagraph, the dendrite, the
      clock) are recorded as explicit effects; what they answer is an input
      of the model. *)

From Stdlib Require Import ZArith List Bool Lia Lra Reals String.
From stdpp Require Import gmap strings list fin_maps.

Local Open Scope Z_scope.

(* ===================================================================== *)
(** ** Interval clock *)
(* ===================================================================== *)

Module IntervalClock.

(** [CLUSTERED_SUBMISSIONS_INTERVAL_MINUTES = 60 * 4] *)
Definition CLUSTERED_SUBMISSIONS_INTERVAL_MINUTES : Z := 60 * 4.

(** Microseconds since [CLUSTER_EPOCH_2024]. *)
Definition datetime : Type := Z.

Definition MICROSECONDS_PER_SECOND : Z := 1000000.

(** [CLUSTER_EPOCH_2024 + timedelta(minutes=m)] *)
Definition epoch_plus_minutes (m : Z) : datetime :=
  m * 60 * MICROSECONDS_PER_SECOND.

(** [int((t - CLUSTER_EPOCH_2024).total_seconds()) // 60]:
    [int] truncates towards zero, [//] rounds down. *)
Definition minutes_since_epoch (t : datetime) : Z :=
  Z.quot t MICROSECONDS_PER_SECOND / 60.

(** [m - (m % CLUSTERED_SUBMISSIONS_INTERVAL_MINUTES)]; Python's [%] with a
    positive divisor is [Z.modulo]. *)
Definition interval_start (m : Z) : Z :=
  m - m mod CLUSTERED_SUBMISSIONS_INTERVAL_MINUTES.

(** [QueryMiners.get_interval_start_minutes], and the same three lines of
    [Validator.forward], as a function of the clock reading [now]. *)
Definition get_interval_start_minutes (now : datetime) : Z :=
  let minutes_since_epoch := minutes_since_epoch now in
  let interval_start_minutes :=
    minutes_since_epoch
    - (minutes_since_epoch mod CLUSTERED_SUBMISSIONS_INTERVAL_MINUTES) in
  interval_start_minutes.

(** [range(start, stop, step)] for a positive [step]. *)
Definition py_range (start stop step : Z) : list Z :=
  map (fun k : nat => start + step * Z.of_nat k)
      (seq 0 (Z.to_nat ((stop - start + step - 1) / step))).

End IntervalClock.

Import IntervalClock.

(* ===================================================================== *)
(** ** Settlement scoring: [Validator.on_event_update] *)
(* ===================================================================== *)

Module Scoring.

(** Modelled from the spec: the enumeration [EventStatus] is declared in
    [infinite_games/events/base.py], which is not among the sources; the
    hook tests it against [SETTLED] and [DISCARDED] only, and the spec names
    the remaining state [OPEN]. *)
Inductive EventStatus : Type := OPEN | SETTLED | DISCARDED.

(** The fields of [ProviderEvent] that the hook reads.  [metadata_market_type]
    is [pe.metadata.get("market_type")]; [answer] is [None] until the ground
    truth is known. *)
Record ProviderEvent : Type := {
  event_id : string;
  market_type : string;
  metadata_market_type : option string;
  registered_date : datetime;
  answer : option R;
  status : EventStatus
}.

(** One entry of a peer's per-interval dictionary. *)
Record IntervalData : Type := {
  interval_agg_prediction : option R
}.

(** What the hook obtains from its collaborators: the number of slots of the
    metagraph, [event_provider.get_event_predictions], the integration's
    [latest_submit_date], [get_miner_data_by_uid(...)["registered_date"]]
    and the clock. *)
Record Validator : Type := {
  metagraph_n : nat;
  get_event_predictions : ProviderEvent -> gmap nat (gmap Z IntervalData);
  latest_submit_date : ProviderEvent -> datetime;
  miner_registered_date : nat -> datetime;
  now : datetime
}.

(** What the hook does to its collaborators. *)
Inductive Effect : Type :=
| UpdateScores (scores : list R) (miner_uids : list nat)
| ExportScores (pe : ProviderEvent) (miner_score_data : list (nat * R * R))
| RemoveEvent (pe : ProviderEvent).

(** [pe.metadata.get("market_type", pe.market_type)] *)
Definition effective_market_type (pe : ProviderEvent) : string :=
  default (market_type pe) (metadata_market_type pe).

(** The scoring window computed at lines 244-268. *)
Record Window : Type := {
  start_interval_start_minutes : Z;
  effective_finish_start_minutes : Z;
  total_intervals : Z
}.

Definition scoring_window (registered cutoff now : datetime) : Window :=
  let cutoff_minutes_since_epoch := minutes_since_epoch cutoff in
  let cutoff_interval_start_minutes :=
    cutoff_minutes_since_epoch
    - (cutoff_minutes_since_epoch mod CLUSTERED_SUBMISSIONS_INTERVAL_MINUTES) in
  let now_minutes_since_epoch := minutes_since_epoch now in
  let now_interval_start_minutes :=
    now_minutes_since_epoch
    - (now_minutes_since_epoch mod CLUSTERED_SUBMISSIONS_INTERVAL_MINUTES) in
  let effective_finish_start_minutes :=
    Z.min cutoff_interval_start_minutes now_interval_start_minutes in
  let start_minutes_since_epoch := minutes_since_epoch registered in
  let start_interval_start_minutes :=
    start_minutes_since_epoch
    - (start_minutes_since_epoch mod CLUSTERED_SUBMISSIONS_INTERVAL_MINUTES) in
  let total_intervals :=
    (effective_finish_start_minutes - start_interval_start_minutes)
    / CLUSTERED_SUBMISSIONS_INTERVAL_MINUTES in
  {| start_interval_start_minutes := start_interval_start_minutes;
     effective_finish_start_minutes := effective_finish_start_minutes;
     total_intervals := total_intervals |}.

(** The intervals visited by the loop of the general branch. *)
Definition window_intervals (w : Window) : list Z :=
  py_range (start_interval_start_minutes w) (effective_finish_start_minutes w)
           CLUSTERED_SUBMISSIONS_INTERVAL_MINUTES.

Definition first_n_intervals : Z := 1.

(** [max(0, min(1, ans))] *)
Definition clamp (ans : R) : R := Rmax 0 (Rmin 1 ans).

(** [1 - ((ans - correct_ans) ** 2)] on the clamped answer. *)
Definition brier_score (ans correct_ans : R) : R :=
  (1 - (clamp ans - correct_ans) ^ 2)%R.

(** Python's [not d] for a dictionary that may be [None]. *)
Definition py_not {A : Type} (d : option (gmap Z A)) : bool :=
  match d with
  | None => true
  | Some m => bool_decide (m = ∅)
  end.

(** [max(d.keys())], [None] on the empty dictionary (where Python raises). *)
Definition max_key {A : Type} (m : gmap Z A) : option Z :=
  foldr (fun k acc => Some (from_option (Z.max k) k acc)) None (elements (dom m)).

(** The answer the instantaneous branch reads off a non-empty dictionary:
    the entry under key [0], else the entry under the greatest key. *)
Definition azuro_pick (prediction_intervals : gmap Z IntervalData) : option R :=
  match prediction_intervals !! 0 with
  | Some d => interval_agg_prediction d
  | None =>
      max_interval ← max_key prediction_intervals;
      d ← prediction_intervals !! max_interval;
      interval_agg_prediction d
  end.

(** The body of the loop over peers for [market_type == "azuro"]
    (lines 282-307). *)
Definition azuro_score (correct_ans : R) (cutoff miner_reg_time : datetime)
    (prediction_intervals : option (gmap Z IntervalData)) : R :=
  let score_of (ans : option R) : R :=
    match ans with
    | None => 0%R
    | Some a => brier_score a correct_ans
    end in
  if bool_decide (cutoff <= miner_reg_time) then score_of (Some (1 / 2)%R)
  else if bool_decide (miner_reg_time < cutoff) && py_not prediction_intervals
  then 0%R
  else score_of (azuro_pick (default ∅ prediction_intervals)).

(** Lines 322-333: the answer used for one interval. *)
Definition interval_answer (miner_reg_time : datetime)
    (prediction_intervals : option (gmap Z IntervalData))
    (interval_start_minutes : Z) : option R :=
  let interval_data :=
    default {| interval_agg_prediction := None |}
            (default ∅ prediction_intervals !! interval_start_minutes) in
  let ans := interval_agg_prediction interval_data in
  let interval_end_date :=
    epoch_plus_minutes
      (interval_start_minutes + CLUSTERED_SUBMISSIONS_INTERVAL_MINUTES) in
  if bool_decide (interval_end_date < miner_reg_time) then Some (1 / 2)%R
  else ans.

(** Lines 335-343: the weight of one interval. *)
Definition interval_weight (w : Window) (interval_start_minutes : Z) : R :=
  let current_interval_no :=
    (interval_start_minutes - start_interval_start_minutes w)
    / CLUSTERED_SUBMISSIONS_INTERVAL_MINUTES in
  if bool_decide (current_interval_no + 1 <= first_n_intervals) then 1%R
  else exp (- (IZR (total_intervals w)
               / IZR (total_intervals w - current_interval_no)) + 1)%R.

(** Lines 346-351: what one interval appends to [mk]. *)
Definition interval_term (wk : R) (ans : option R) (correct_ans : R) : R :=
  match ans with
  | None => 0%R
  | Some a => (wk * brier_score a correct_ans)%R
  end.

(** One pass of the loop body: the pair [(mk, weights_sum)] after it. *)
Definition interval_step (correct_ans : R) (w : Window)
    (miner_reg_time : datetime)
    (prediction_intervals : option (gmap Z IntervalData))
    (acc : list R * R) (interval_start_minutes : Z) : list R * R :=
  let '(mk, weights_sum) := acc in
  let ans := interval_answer miner_reg_time prediction_intervals
                             interval_start_minutes in
  let wk := interval_weight w interval_start_minutes in
  (mk ++ [interval_term wk ans correct_ans], (weights_sum + wk)%R).

(** [sum(mk)] *)
Definition Rsum (l : list R) : R := fold_left Rplus l 0%R.

(** The body of the loop over peers in the general branch (lines 308-368). *)
Definition general_score (correct_ans : R) (w : Window)
    (event_registered miner_reg_time : datetime)
    (prediction_intervals : option (gmap Z IntervalData)) : R :=
  if bool_decide (miner_reg_time < event_registered)
     && py_not prediction_intervals
  then 0%R
  else
    let '(mk, weights_sum) :=
      fold_left (interval_step correct_ans w miner_reg_time prediction_intervals)
                (window_intervals w) ([], 0%R) in
    if Rlt_dec 0 weights_sum then (Rsum mk / weights_sum)%R else 0%R.

(** The raw score of one peer. *)
Definition miner_score (v : Validator) (pe : ProviderEvent) (correct_ans : R)
    (predictions : gmap nat (gmap Z IntervalData)) (uid : nat) : R :=
  let cutoff := latest_submit_date v pe in
  let w := scoring_window (registered_date pe) cutoff (now v) in
  let miner_reg_time := miner_registered_date v uid in
  let prediction_intervals := predictions !! uid in
  if bool_decide (effective_market_type pe = "azuro")
  then azuro_score correct_ans cutoff miner_reg_time prediction_intervals
  else general_score correct_ans w (registered_date pe) miner_reg_time
                     prediction_intervals.

(** [all(score.item() <= 0.0 for score in scores)] *)
Definition all_nonpositive (scores : list R) : bool :=
  forallb (fun s => if Rle_dec s 0 then true else false) scores.

(** Lines 375-384: exponentiate the non-zero entries unless every entry is
    non-positive. *)
Definition sharpen (scores : list R) : list R :=
  if all_nonpositive scores then scores
  else
    let alpha := 0%R in
    let beta := 1%R in
    map (fun s => if Req_dec_T s 0 then s
                  else (alpha * s + beta * exp (30 * s))%R) scores.

(** What [sharpen] does to one entry when it exponentiates. *)
Definition sharpen_entry (s : R) : R :=
  if Req_dec_T s 0 then s else (0 * s + 1 * exp (30 * s))%R.

(** [torch.nn.functional.normalize(v, p=1, dim=0)]: every entry divided by
    [max(sum |v_i|, eps)] with the library's default [eps = 1e-12]. *)
Definition normalize_eps : R := (/ 1000000000000)%R.

Definition l1_norm (v : list R) : R := Rsum (map Rabs v).

Definition normalize_l1 (v : list R) : list R :=
  let denom := Rmax (l1_norm v) normalize_eps in
  map (fun x => (x / denom)%R) v.

(** The raw scores of all peers, [brier_scores]. *)
Definition raw_scores (v : Validator) (pe : ProviderEvent) (correct_ans : R)
    (predictions : gmap nat (gmap Z IntervalData)) : list R :=
  map (miner_score v pe correct_ans predictions) (seq 0 (metagraph_n v)).

(** [Validator.on_event_update]: the returned flag and the calls made. *)
Definition on_event_update (v : Validator) (pe : ProviderEvent)
  : bool * list Effect :=
  match status pe with
  | SETTLED =>
      let miner_uids := seq 0 (metagraph_n v) in
      match answer pe with
      | None => (true, [])
      | Some correct_ans =>
          let predictions := get_event_predictions v pe in
          if bool_decide (predictions = ∅) then (true, [])
          else
            let brier_scores := raw_scores v pe correct_ans predictions in
            let scores := normalize_l1 (sharpen brier_scores) in
            (true,
             [UpdateScores scores miner_uids;
              ExportScores pe
                (zip (zip miner_uids brier_scores) scores)])
      end
  | DISCARDED => (false, [RemoveEvent pe])
  | OPEN => (false, [])
  end.

End Scoring.

(* ===================================================================== *)
(** ** Dispatch: [QueryMiners] *)
(* ===================================================================== *)

Module Dispatcher.

(** The fields of [AxonInfo] that the task reads. *)
Record AxonInfo : Type := {
  hotkey : string;
  is_serving : bool
}.

(** [metagraph.uids], [metagraph.axons] (indexed by uid, an entry may be
    [None]) and [metagraph.block]. *)
Record Metagraph : Type := {
  uids : list nat;
  axons : list (option AxonInfo);
  block : Z
}.

(** A row of [get_events_to_predict], columns 0 to 6, with the ISO dates
    already read as POSIX seconds and [metadata] reduced to its
    ["market_type"] entry. *)
Record EventRow : Type := {
  row_event_id : string;
  row_market_type : string;
  row_description : string;
  row_cutoff : option Z;
  row_resolve_date : option Z;
  row_end_date : option Z;
  row_metadata_market_type : option string
}.

(** One value of the [events] dictionary of a synapse. *)
Record EventPrediction : Type := {
  ep_event_id : string;
  ep_market_type : string;
  probability : option R;
  miner_answered : bool;
  ep_description : string;
  ep_cutoff : option Z;
  ep_starts : option Z;
  ep_resolve_date : option Z;
  ep_end_date : option Z
}.

Record EventsPredictionSynapse : Type := {
  events : gmap string EventPrediction
}.

(** The tuple appended by [parse_neuron_predictions]:
    [(unique_event_id, axon_hotkey, uid, answer, interval_start_minutes,
      answer, block, answer)]. *)
Definition Prediction : Type :=
  (string * string * nat * option R * Z * option R * Z * option R)%type.

Definition prediction_event (p : Prediction) : string :=
  let '(unique_event_id, _, _, _, _, _, _, _) := p in unique_event_id.

Definition prediction_uid (p : Prediction) : nat :=
  let '(_, _, uid, _, _, _, _, _) := p in uid.

Definition prediction_answer (p : Prediction) : option R :=
  let '(_, _, _, answer, _, _, _, _) := p in answer.

(** Calls that leave the task. *)
Inductive Call : Type :=
| GetEventsToPredict
| MetagraphSync
| DendriteForward (axons_list : list AxonInfo)
                  (synapse : EventsPredictionSynapse) (timeout : Z)
| UpsertPredictions (predictions : list Prediction).

(** What the collaborators answer: the rows of the store, the metagraph as
    it is after [sync], the replies of the peers and the clock. *)
Record Collaborators : Type := {
  events_to_predict : list EventRow;
  synced : Metagraph -> Metagraph;
  replies : list AxonInfo -> EventsPredictionSynapse
            -> list EventsPredictionSynapse;
  utc_now : datetime
}.

(** State of a run: the metagraph of the task and the calls made so far.
    [None] stands for a raised exception. *)
Record TaskState : Type := {
  metagraph : Metagraph;
  calls : list Call
}.

Definition Task (A : Type) : Type := TaskState -> option (A * TaskState).

Definition task_ret {A : Type} (a : A) : Task A := fun s => Some (a, s).

Definition task_bind {A B : Type} (m : Task A) (k : A -> Task B) : Task B :=
  fun s => match m s with
           | Some (a, s') => k a s'
           | None => None
           end.

Definition raise {A : Type} : Task A := fun _ => None.

Definition call (c : Call) : Task unit :=
  fun s => Some (tt, {| metagraph := metagraph s; calls := calls s ++ [c] |}).

Definition read_metagraph : Task Metagraph := fun s => Some (metagraph s, s).

Definition write_metagraph (m : Metagraph) : Task unit :=
  fun s => Some (tt, {| metagraph := m; calls := calls s |}).

Definition lift_option {A : Type} (o : option A) : Task A :=
  match o with
  | Some a => task_ret a
  | None => raise
  end.

Notation "'do' x <- m ; k" := (task_bind m (fun x => k))
  (at level 10, x name, m at level 100, k at level 200).
Notation "'do_' m ; k" := (task_bind m (fun _ => k))
  (at level 10, m at level 100, k at level 200).

(** [str.lower] on the ASCII letters. *)
Definition lower_ascii (c : Ascii.ascii) : Ascii.ascii :=
  let n := Ascii.nat_of_ascii c in
  if ((65 <=? n) && (n <=? 90))%nat then Ascii.ascii_of_nat (n + 32) else c.

Fixpoint lower (s : string) : string :=
  match s with
  | EmptyString => EmptyString
  | String c s' => String (lower_ascii c) (lower s')
  end.

(** [QueryMiners.make_predictions_synapse] *)
Definition make_predictions_synapse (rows : list EventRow)
  : EventsPredictionSynapse :=
  let compiled_events :=
    foldl (fun (compiled : gmap string EventPrediction) (event : EventRow) =>
             let event_id := row_event_id event in
             let description := row_description event in
             let cutoff := row_cutoff event in
             let resolve_date := row_resolve_date event in
             let end_date := row_end_date event in
             let market_type :=
               lower (default (row_market_type event)
                              (row_metadata_market_type event)) in
             <[ (market_type ++ "-" ++ event_id)%string :=
                {| ep_event_id := event_id;
                   ep_market_type := market_type;
                   probability := None;
                   miner_answered := false;
                   ep_description := description;
                   ep_cutoff := cutoff;
                   ep_starts :=
                     match cutoff with
                     | Some c =>
                         if negb (c =? 0) && bool_decide (market_type = "azuro")
                         then Some c else None
                     | None => None
                     end;
                   ep_resolve_date := resolve_date;
                   ep_end_date := end_date |} ]> compiled)
          ∅ rows in
  {| events := compiled_events |}.

(** [QueryMiners.get_axons]; indexing [metagraph.axons] out of range
    raises. *)
Definition get_axons (m : Metagraph) : option (gmap nat AxonInfo) :=
  foldl (fun (acc : option (gmap nat AxonInfo)) (uid : nat) =>
           found ← acc;
           axon ← axons m !! uid;
           Some match axon with
                | Some a => if is_serving a then <[uid := a]> found else found
                | None => found
                end)
        (Some ∅) (uids m).

(** [QueryMiners.parse_neuron_predictions]; a missing axon raises. *)
Definition parse_neuron_predictions (m : Metagraph) (block : Z)
    (interval_start_minutes : Z) (uid : nat)
    (neuron_predictions : EventsPredictionSynapse)
  : option (list Prediction) :=
  axon ← mjoin (axons m !! uid);
  let axon_hotkey := hotkey axon in
  Some (map (fun '(unique_event_id, event_prediction) =>
               let answer := probability event_prediction in
               (unique_event_id, axon_hotkey, uid, answer,
                interval_start_minutes, answer, block, answer))
            (map_to_list (events neuron_predictions))).

(** [QueryMiners.query_neurons] *)
Definition query_neurons (w : Collaborators)
    (axons_by_uid : gmap nat AxonInfo) (synapse : EventsPredictionSynapse)
  : Task (gmap nat EventsPredictionSynapse) :=
  let timeout := 120 in
  let axons_list := (map_to_list axons_by_uid).*2 in
  do_ call (DendriteForward axons_list synapse timeout);
  let responses := replies w axons_list synapse in
  let axons_uids := (map_to_list axons_by_uid).*1 in
  task_ret (foldl (fun (responses_by_uid : gmap nat EventsPredictionSynapse)
                       '(uid, response) => <[uid := response]> responses_by_uid)
                  ∅ (zip axons_uids responses)).

(** The body of the loop of [store_predictions] for one reply, followed by
    the remaining passes. *)
Definition store_one (block : Z) (interval_start_minutes : Z)
    (entry : nat * EventsPredictionSynapse) (rest : Task unit) : Task unit :=
  let '(uid, neuron_predictions) := entry in
  do m <- read_metagraph;
  do parsed <-
    lift_option (parse_neuron_predictions m block interval_start_minutes uid
                   neuron_predictions);
  do_ call (UpsertPredictions parsed);
  rest.

(** [QueryMiners.store_predictions] *)
Definition store_predictions (block : Z) (interval_start_minutes : Z)
    (neurons_predictions : gmap nat EventsPredictionSynapse) : Task unit :=
  foldr (store_one block interval_start_minutes) (task_ret tt)
        (map_to_list neurons_predictions).

(** [QueryMiners.run] *)
Definition run (w : Collaborators) : Task unit :=
  do_ call GetEventsToPredict;
  let events := events_to_predict w in
  if (length events =? 0)%nat then task_ret tt
  else
    let synapse := make_predictions_synapse events in
    do_ call MetagraphSync;
    do m <- read_metagraph;
    do_ write_metagraph (synced w m);
    do m <- read_metagraph;
    let block := block m in
    do axons <- lift_option (get_axons m);
    if (size axons =? 0)%nat then task_ret tt
    else
      do predictions_synapses <- query_neurons w axons synapse;
      let interval_start_minutes := get_interval_start_minutes (utc_now w) in
      store_predictions block interval_start_minutes predictions_synapses.

(** The records handed to the store during a run, batch after batch. *)
Definition upserted (cs : list Call) : list Prediction :=
  concat (map (fun c => match c with
                        | UpsertPredictions ps => ps
                        | _ => []
                        end) cs).

(** The record built from one entry of a reply. *)
Definition prediction_of (axon_hotkey : string) (block : Z)
    (interval_start_minutes : Z) (uid : nat)
    (entry : string * EventPrediction) : Prediction :=
  let answer := probability (snd entry) in
  (fst entry, axon_hotkey, uid, answer, interval_start_minutes, answer, block,
   answer).

(** The records of peer [uid] for the event [unique_event_id]. *)
Definition records_for (uid : nat) (unique_event_id : string)
    (ps : list Prediction) : list Prediction :=
  filter (fun p => prediction_uid p = uid
                   /\ prediction_event p = unique_event_id) ps.

End Dispatcher.

(* ===================================================================== *)
(** ** Rate limit of [Validator.forward] *)
(* ===================================================================== *)

Module Forward.

(** [MIN_TIME_BETWEEN_QUERY_MINERS = 300], in seconds. *)
Definition MIN_TIME_BETWEEN_QUERY_MINERS : R := 300%R.

(** [self.last_query_time], [self.blocktime], and the wall clock
    ([time.time()], in seconds). *)
Record ForwardState : Type := {
  last_query_time : R;
  blocktime : Z;
  clock : R
}.

(** What a round does that the rate limit is about, each with the clock
    reading at which it starts. *)
Inductive Action : Type :=
| QueryMiners (at_time : R)
| Sleep (at_time : R) (wait_time : R).

(** How long the two stretches of a round take: from the call of [forward]
    to the call of [query_miners] (lines 472-492), and from there to the
    rate-limit test (lines 493-619); [pytest] is whether
    [PYTEST_CURRENT_TEST] is set. *)
Record Round : Type := {
  pytest : bool;
  before_query : R;
  after_query : R
}.

(** [Validator.forward], reduced to its clock: the query is issued first,
    the rate-limit test and the sleep come last, and [last_query_time] is
    set in the [finally] clause.  The processing of the replies between the
    two (lines 507-617) only consumes time here. *)
Definition forward (r : Round) (st : ForwardState)
  : ForwardState * list Action :=
  let query_time := (clock st + before_query r)%R in
  let test_time := (query_time + after_query r)%R in
  let blocktime' := blocktime st + 1 in
  let since_last_query := (test_time - last_query_time st)%R in
  if (if Rlt_dec since_last_query MIN_TIME_BETWEEN_QUERY_MINERS
      then negb (pytest r) else false)
  then
    let wait_time := (MIN_TIME_BETWEEN_QUERY_MINERS - since_last_query)%R in
    let woke := (test_time + wait_time)%R in
    ({| last_query_time := woke; blocktime := blocktime'; clock := woke |},
     [QueryMiners query_time; Sleep test_time wait_time])
  else
    ({| last_query_time := test_time; blocktime := blocktime';
        clock := test_time |},
     [QueryMiners query_time]).

(** Rounds run back to back by the caller's loop. *)
Fixpoint forward_loop (rs : list Round) (st : ForwardState)
  : ForwardState * list Action :=
  match rs with
  | [] => (st, [])
  | r :: rs' =>
      let '(st1, acts1) := forward r st in
      let '(st2, acts2) := forward_loop rs' st1 in
      (st2, acts1 ++ acts2)
  end.

(** The instants at which the peers are queried. *)
Definition query_times (acts : list Action) : list R :=
  omap (fun a => match a with
                 | QueryMiners t => Some t
                 | Sleep _ _ => None
                 end) acts.

End Forward.

(* ===================================================================== *)
(** ** Concrete scenarios *)
(* ===================================================================== *)

(** The end-to-end scenario of the specification and variations of it:
    an event registered at minute 0 with its cutoff at minute 480, ground
    truth 1; peer 0 answers 0.9 in interval 0 and 0.8 in interval 240, peer 1
    never answers; both registered before the event. *)
Module Scenario.

Import Scoring.

Definition recorded (a : R) : IntervalData :=
  {| interval_agg_prediction := Some a |}.

Definition event : ProviderEvent :=
  {| event_id := "e1";
     market_type := "ifgames";
     metadata_market_type := None;
     registered_date := epoch_plus_minutes 0;
     answer := Some 1%R;
     status := SETTLED |}.

Definition peer_a : gmap Z IntervalData :=
  {[ 0 := recorded (9 / 10)%R; 240 := recorded (8 / 10)%R ]}.

Definition predictions : gmap nat (gmap Z IntervalData) :=
  {[ 0%nat := peer_a ]}.

Definition validator : Validator :=
  {| metagraph_n := 2;
     get_event_predictions := fun _ => predictions;
     latest_submit_date := fun _ => epoch_plus_minutes 480;
     miner_registered_date := fun _ => epoch_plus_minutes (-1000);
     now := epoch_plus_minutes 10000 |}.

(** A peer that answered in the second interval only. *)
Definition late_answer : gmap Z IntervalData :=
  {[ 240 := recorded (8 / 10)%R ]}.

(** The same event without its ground truth, and voided. *)
Definition event_without_answer : ProviderEvent :=
  {| event_id := "e1";
     market_type := "ifgames";
     metadata_market_type := None;
     registered_date := epoch_plus_minutes 0;
     answer := None;
     status := SETTLED |}.

Definition event_discarded : ProviderEvent :=
  {| event_id := "e1";
     market_type := "ifgames";
     metadata_market_type := None;
     registered_date := epoch_plus_minutes 0;
     answer := None;
     status := DISCARDED |}.

(** An instantaneous event registered at minute 240 with its cutoff at
    minute 720; the peer answered 0.9 in the first interval of the window
    and 0.2 in the next. *)
Definition azuro_event : ProviderEvent :=
  {| event_id := "a1";
     market_type := "azuro";
     metadata_market_type := None;
     registered_date := epoch_plus_minutes 240;
     answer := Some 1%R;
     status := SETTLED |}.

Definition azuro_cutoff : datetime := epoch_plus_minutes 720.

Definition azuro_answers : gmap Z IntervalData :=
  {[ 240 := recorded (9 / 10)%R; 480 := recorded (2 / 10)%R ]}.

Definition azuro_validator : Validator :=
  {| metagraph_n := 1;
     get_event_predictions := fun _ => {[ 0%nat := azuro_answers ]};
     latest_submit_date := fun _ => azuro_cutoff;
     miner_registered_date := fun _ => epoch_plus_minutes (-1000);
     now := epoch_plus_minutes 10000 |}.

(** A dispatch round with one open event and one serving peer whose reply
    carries two entries, neither of them for the event of the request. *)
Import Dispatcher.

Definition open_row : EventRow :=
  {| row_event_id := "e1";
     row_market_type := "ifgames";
     row_description := "will it rain";
     row_cutoff := Some 1735689600;
     row_resolve_date := None;
     row_end_date := None;
     row_metadata_market_type := None |}.

Definition unanswered (id : string) : EventPrediction :=
  {| ep_event_id := id;
     ep_market_type := "ifgames";
     probability := None;
     miner_answered := false;
     ep_description := "";
     ep_cutoff := None;
     ep_starts := None;
     ep_resolve_date := None;
     ep_end_date := None |}.

Definition stray_reply : EventsPredictionSynapse :=
  {| events := {[ "ifgames-x1"%string := unanswered "x1";
                  "ifgames-x2"%string := unanswered "x2" ]} |}.

Definition serving_axon : AxonInfo :=
  {| hotkey := "hk0"; is_serving := true |}.

Definition one_peer : Metagraph :=
  {| uids := [0%nat]; axons := [Some serving_axon]; block := 7 |}.

Definition stray_round : Collaborators :=
  {| events_to_predict := [open_row];
     synced := fun m => m;
     replies := fun _ _ => [stray_reply];
     utc_now := epoch_plus_minutes 500 |}.

Definition fresh_task : TaskState :=
  {| metagraph := one_peer; calls := [] |}.

(** A validator whose previous round ended at second 1000 and whose next
    round is started at once; a round that reaches its query without delay,
    and one that spends 100 seconds before its query. *)
Import Forward.

Definition just_finished : ForwardState :=
  {| last_query_time := 1000%R; blocktime := 0; clock := 1000%R |}.

Definition prompt_round : Round :=
  {| pytest := false; before_query := 0%R; after_query := 0%R |}.

Definition slow_start_round : Round :=
  {| pytest := false; before_query := 100%R; after_query := 0%R |}.

End Scenario.

(* ===================================================================== *)
(** ** The request of a dispatch round, entry by entry *)
(* ===================================================================== *)

Module Request.

Import Dispatcher.

(** The key under which [make_predictions_synapse] files a row:
    [f"{market_type}-{event_id}"]. *)
Definition compiled_key (event : EventRow) : string :=
  let market_type :=
    lower (default (row_market_type event) (row_metadata_market_type event)) in
  (market_type ++ "-" ++ row_event_id event)%string.

(** The entry [make_predictions_synapse] files for a row. *)
Definition compiled_entry (event : EventRow) : EventPrediction :=
  let event_id := row_event_id event in
  let description := row_description event in
  let cutoff := row_cutoff event in
  let resolve_date := row_resolve_date event in
  let end_date := row_end_date event in
  let market_type :=
    lower (default (row_market_type event) (row_metadata_market_type event)) in
  {| ep_event_id := event_id;
     ep_market_type := market_type;
     probability := None;
     miner_answered := false;
     ep_description := description;
     ep_cutoff := cutoff;
     ep_starts :=
       match cutoff with
       | Some c =>
           if negb (c =? 0) && bool_decide (market_type = "azuro")
           then Some c else None
       | None => None
       end;
     ep_resolve_date := resolve_date;
     ep_end_date := end_date |}.

(** Whether [a] is the axon of slot [uid] and is serving. *)
Definition serving_at (m : Metagraph) (uid : nat) (a : AxonInfo) : Prop :=
  axons m !! uid = Some (Some a) /\ is_serving a = true.

End Request.

(* ===================================================================== *)
(** ** The reply-processing loop of [Validator.forward] (lines 513-617) *)
(* ===================================================================== *)

Module ForwardLoop.

Import Scoring.

(** One value of [resp.events]: [event_data.get("probability")] and
    [event_data.get("miner_answered")]. *)
Record EventData : Type := {
  ed_probability : option R;
  ed_miner_answered : option bool
}.

Record Response : Type := {
  resp_events : gmap string EventData
}.

(** What the loop asks of an integration. *)
Record ProviderIntegration : Type := {
  available_for_submission : ProviderEvent -> bool
}.

(** [event_provider.get_registered_event] and
    [event_provider.integrations.get]. *)
Record EventProvider : Type := {
  get_registered_event : string -> option ProviderEvent;
  integrations : string -> option ProviderIntegration
}.

(** The four lists the loop appends to, and its counter. *)
Record Columns : Type := {
  provider_events : list (option ProviderEvent);
  minerUids : list nat;
  answers : list (option R);
  details : list string;
  no_updates_count : nat
}.

Definition no_columns : Columns :=
  {| provider_events := []; minerUids := []; answers := []; details := [];
     no_updates_count := 0 |}.

(** The branch taken after the three appends: the string appended to
    [details]. *)
Definition detail_of (ev : EventProvider)
    (provider_event : option ProviderEvent) (score : option R) : string :=
  match provider_event with
  | None => "non-registered-event"
  | Some pe =>
      match score with
      | None => "no-prediction"
      | Some _ =>
          match integrations ev (market_type pe) with
          | None => "no-integration"
          | Some integration =>
              if available_for_submission integration pe then "valid"
              else "not-open"
          end
      end
  end.

(** One pass of the inner loop (the logging of samples left out). *)
Definition entry_step (ev : EventProvider) (uid : nat) (cols : Columns)
    (entry : string * EventData) : Columns :=
  let '(unique_event_id, event_data) := entry in
  let score := ed_probability event_data in
  let miner_answered := ed_miner_answered event_data in
  let no_updates_count :=
    match miner_answered, score with
    | Some false, None => S (no_updates_count cols)
    | _, _ => no_updates_count cols
    end in
  let provider_event := get_registered_event ev unique_event_id in
  {| provider_events := provider_events cols ++ [provider_event];
     minerUids := minerUids cols ++ [uid];
     answers := answers cols ++ [score];
     details := details cols ++ [detail_of ev provider_event score];
     no_updates_count := no_updates_count |}.

(** One pass of the outer loop. *)
Definition response_step (ev : EventProvider) (cols : Columns)
    (pair : nat * Response) : Columns :=
  let '(uid, resp) := pair in
  foldl (entry_step ev uid) cols (map_to_list (resp_events resp)).

(** The two nested loops over [zip(miner_uids, responses)]. *)
Definition collect (ev : EventProvider) (miner_uids : list nat)
    (responses : list Response) : Columns :=
  foldl (response_step ev) no_columns (zip miner_uids responses).

(** The data frame handed to [miner_batch_update_predictions]; the two
    scalars are broadcast to every row. *)
Record MinersPayload : Type := {
  payload_provider_event : list (option ProviderEvent);
  payload_minerUid : list nat;
  payload_blocktime : Z;
  payload_interval_start_minutes : Z;
  payload_answer : list (option R);
  payload_details : list string
}.

(** Assigning the columns one after the other; a column whose length
    differs from that of the first raises. *)
Definition make_payload (cols : Columns) (block_start : Z)
    (interval_start_minutes : Z) : option MinersPayload :=
  let rows := length (provider_events cols) in
  if ((length (minerUids cols) =? rows)
      && (length (answers cols) =? rows)
      && (length (details cols) =? rows))%nat
  then Some {| payload_provider_event := provider_events cols;
               payload_minerUid := minerUids cols;
               payload_blocktime := block_start;
               payload_interval_start_minutes := interval_start_minutes;
               payload_answer := answers cols;
               payload_details := details cols |}
  else None.

(** Lines 496-500 and 513-617: what the round hands to the store, [None]
    standing for a raised exception. *)
Definition store_round (ev : EventProvider) (block_start : Z)
    (now : datetime) (miner_uids : list nat) (responses : list Response)
  : option (list MinersPayload) :=
  let interval_start_minutes := get_interval_start_minutes now in
  let cols := collect ev miner_uids responses in
  if (0 <? length (minerUids cols))%nat
  then
    miners_payload ← make_payload cols block_start interval_start_minutes;
    Some [miners_payload]
  else Some [].

(** One row of the four lists, and the rows of a round in the order in
    which the loops append them. *)
Record Row : Type := {
  row_event : option ProviderEvent;
  row_uid : nat;
  row_answer : option R;
  row_detail : string
}.

Definition entry_row (ev : EventProvider) (uid : nat)
    (entry : string * EventData) : Row :=
  let provider_event := get_registered_event ev (fst entry) in
  let score := ed_probability (snd entry) in
  {| row_event := provider_event;
     row_uid := uid;
     row_answer := score;
     row_detail := detail_of ev provider_event score |}.

Definition round_rows (ev : EventProvider) (miner_uids : list nat)
    (responses : list Response) : list Row :=
  concat (map (fun pair : nat * Response =>
                 map (entry_row ev (fst pair))
                     (map_to_list (resp_events (snd pair))))
              (zip miner_uids responses)).

(** [cols'] is [cols] with the four columns of [rows] appended. *)
Definition columns_extend (cols cols' : Columns) (rows : list Row) : Prop :=
  provider_events cols' = provider_events cols ++ map row_event rows
  /\ minerUids cols' = minerUids cols ++ map row_uid rows
  /\ answers cols' = answers cols ++ map row_answer rows
  /\ details cols' = details cols ++ map row_detail rows.

End ForwardLoop.

(* ===================================================================== *)
(** ** The export of interval statistics: [Validator.send_interval_stats] *)
(* ===================================================================== *)

Module IntervalStats.

Import Stdlib.Strings.Ascii.

(** The columns of a row of [get_all_non_exported_event_predictions] that
    the loop reads.  [stat_metadata] is [None] for a metadata that is
    [None] or empty, and otherwise holds the ["market_type"] entry of the
    parsed JSON object, if it has one. *)
Record PredictionRow : Type := {
  stat_metadata : option (option string);
  stat_unique_event_id : string;
  stat_uid : nat;
  stat_interval_minutes : Z;
  stat_agg_prediction : option R;
  stat_count : Z
}.

(** [[uid, unique_event_id, market_type, interval_minutes, agg_prediction,
      count]] *)
Definition Metric : Type :=
  (nat * string * string * Z * option R * Z)%type.

Definition metric_market_type (metric : Metric) : string :=
  let '(_, _, market_type, _, _, _) := metric in market_type.

(** [s.split("-")[0]]: the characters before the first dash. *)
Fixpoint before_dash (s : string) : string :=
  match s with
  | EmptyString => EmptyString
  | String c s' =>
      if Ascii.eqb c "-"%char then EmptyString
      else String c (before_dash s')
  end.

(** The body of the loop over [predictions_data]. *)
Definition metric_of (row : PredictionRow) : Metric :=
  let unique_event_id := stat_unique_event_id row in
  let market_type := before_dash unique_event_id in
  let market_type :=
    match stat_metadata row with
    | Some md => default market_type md
    | None => market_type
    end in
  (stat_uid row, unique_event_id, market_type, stat_interval_minutes row,
   stat_agg_prediction row, stat_count row).

(** Calls that leave the export. *)
Inductive StatCall : Type :=
| GetNonExported (interval_minutes_begin interval_minutes_end : Z)
| SendIntervalData (miner_data : list Metric)
| Sleep (seconds : Z)
| MarkExported (interval_minutes_begin interval_minutes_end : Z).

(** What the collaborators answer: the unexported rows of a range, the
    chunks [split_chunks] yields for a list and a chunk size (the helper is
    declared in [infinite_games/utils/misc.py], which is not among the
    sources), and whether [send_interval_data] returns ([true]) or
    raises. *)
Record StatsWorld : Type := {
  non_exported : Z -> Z -> list PredictionRow;
  split_chunks : list Metric -> Z -> list (list Metric);
  send_returns : list Metric -> bool
}.

(** The two ends of the exported range (lines 134-145). *)
Definition export_range (now : datetime) : Z * Z :=
  let minutes_since_epoch := minutes_since_epoch now in
  let previous_interval_start_minutes :=
    minutes_since_epoch
    - (minutes_since_epoch mod CLUSTERED_SUBMISSIONS_INTERVAL_MINUTES)
    - CLUSTERED_SUBMISSIONS_INTERVAL_MINUTES in
  let previous_m20_interval_start_minutes :=
    minutes_since_epoch
    - (minutes_since_epoch mod CLUSTERED_SUBMISSIONS_INTERVAL_MINUTES)
    - (CLUSTERED_SUBMISSIONS_INTERVAL_MINUTES * 20) in
  (previous_m20_interval_start_minutes, previous_interval_start_minutes).

(** The [async for] over the chunks inside the [try]: the calls made, and
    whether the loop ran to its end. *)
Fixpoint send_chunks (w : StatsWorld) (chunks : list (list Metric))
  : list StatCall * bool :=
  match chunks with
  | [] => ([], true)
  | metrics :: rest =>
      if send_returns w metrics
      then let '(calls, finished) := send_chunks w rest in
           (SendIntervalData metrics :: calls, finished)
      else ([SendIntervalData metrics], false)
  end.

(** [Validator.send_interval_stats] *)
Definition send_interval_stats (w : StatsWorld) (now : datetime)
  : list StatCall :=
  let '(begin_minutes, end_minutes) := export_range now in
  let predictions_data := non_exported w begin_minutes end_minutes in
  let metrics := map metric_of predictions_data in
  GetNonExported begin_minutes end_minutes
  :: (if (0 <? length metrics)%nat
      then
        let chunk_metrics := split_chunks w metrics 15000 in
        let '(calls, finished) := send_chunks w chunk_metrics in
        if finished
        then calls ++ [Sleep 4; MarkExported begin_minutes end_minutes]
        else calls
      else []).

End IntervalStats.

(* ===================================================================== *)
(** ** The export of scores: [Validator.export_scores] *)
(* ===================================================================== *)

Module ScoreExport.

Import Scoring.

(** The event handed to the export: the fields the hook reads, and the
    three more that the body of the request quotes. *)
Record ExportedEvent : Type := {
  exp_event : ProviderEvent;
  exp_description : string;
  exp_starts : option datetime;
  exp_resolve_date : option datetime
}.

(** One element of [body["results"]]; dates stand for their ISO strings, and
    [metadata] is reduced to its ["market_type"] entry. *)
Record Result : Type := {
  res_event_id : string;
  res_provider_type : string;
  res_title : string;
  res_description : string;
  res_category : string;
  res_start_date : option datetime;
  res_end_date : option datetime;
  res_resolve_date : option datetime;
  res_settle_date : datetime;
  res_prediction : R;
  res_answer : R;
  res_miner_hotkey : string;
  res_miner_uid : nat;
  res_miner_score : R;
  res_miner_effective_score : R;
  res_validator_hotkey : string;
  res_validator_uid : nat;
  res_metadata_market_type : option string;
  res_spec_version : string
}.

(** Calls that leave the export. *)
Inductive ExportCall : Type :=
| Post (results : list Result)
| MarkEventAsExported (p_event : ExportedEvent)
| Sleep (seconds : Z).

(** What surrounds the export: whether [ENV] is ["pytest"], the hotkeys of
    the metagraph, the hotkey of the wallet, the clock (its readings while
    the body is built taken equal), the version string (declared outside
    the sources), and the status code the server answers, [None] when
    [requests.post] raises. *)
Record ExportWorld : Type := {
  env_is_pytest : bool;
  hotkeys : list string;
  own_hotkey : string;
  settle_now : datetime;
  spec_version : string;
  post_status : list Result -> option Z
}.

(** [l.index(x)]: the first position of [x], [None] where Python raises. *)
Fixpoint index_of (x : string) (l : list string) : option nat :=
  match l with
  | [] => None
  | y :: l' => if bool_decide (y = x) then Some 0%nat
               else S <$> index_of x l'
  end.

(** One element of the list comprehension; [float(None)] and an index out
    of range raise. *)
Definition result_of (w : ExportWorld) (p_event : ExportedEvent)
    (v_uid : nat) (entry : nat * R * R) : option Result :=
  let '(miner_uid, score, effective_score) := entry in
  answer ← answer (exp_event p_event);
  miner_hotkey ← hotkeys w !! miner_uid;
  Some {| res_event_id := event_id (exp_event p_event);
          res_provider_type := market_type (exp_event p_event);
          res_title := String.substring 0 50 (exp_description p_event);
          res_description := exp_description p_event;
          res_category := "event";
          res_start_date := exp_starts p_event;
          res_end_date := exp_resolve_date p_event;
          res_resolve_date := exp_resolve_date p_event;
          res_settle_date := settle_now w;
          res_prediction := 0%R;
          res_answer := answer;
          res_miner_hotkey := miner_hotkey;
          res_miner_uid := miner_uid;
          res_miner_score := score;
          res_miner_effective_score := effective_score;
          res_validator_hotkey := own_hotkey w;
          res_validator_uid := v_uid;
          res_metadata_market_type :=
            metadata_market_type (exp_event p_event);
          res_spec_version := spec_version w |}.

(** The body of the request, [None] when building it raises. *)
Definition build_results (w : ExportWorld) (p_event : ExportedEvent)
    (miner_score_data : list (nat * R * R)) : option (list Result) :=
  v_uid ← index_of (own_hotkey w) (hotkeys w);
  mapM (result_of w p_event v_uid) miner_score_data.

(** [Validator.export_scores]; every exception is caught and logged. *)
Definition export_scores (w : ExportWorld) (p_event : ExportedEvent)
    (miner_score_data : list (nat * R * R)) : list ExportCall :=
  if negb (env_is_pytest w)
  then
    match build_results w p_event miner_score_data with
    | None => []
    | Some results =>
        Post results
        :: match post_status w results with
           | None => []
           | Some status_code =>
               (if negb (status_code =? 200) then []
                else [MarkEventAsExported p_event])
               ++ [Sleep 1]
           end
    end
  else [].

End ScoreExport.

(* ===================================================================== *)
(** ** Further concrete cases *)
(* ===================================================================== *)

Module Cases.

Import Scoring.

(** The window of the scenario: intervals 0 and 240. *)
Definition window : Window :=
  scoring_window (epoch_plus_minutes 0) (epoch_plus_minutes 480)
                 (epoch_plus_minutes 10000).

(** A peer that answered the ground truth 1 in both intervals. *)
Definition perfect_peer : gmap Z IntervalData :=
  {[ 0 := Scenario.recorded 1%R; 240 := Scenario.recorded 1%R ]}.

(** An event registered at minute 10 whose cutoff, minute 200, lies in the
    same interval. *)
Definition short_event : ProviderEvent :=
  {| event_id := "s1";
     market_type := "ifgames";
     metadata_market_type := None;
     registered_date := epoch_plus_minutes 10;
     answer := Some 1%R;
     status := SETTLED |}.

Definition short_validator : Validator :=
  {| metagraph_n := 2;
     get_event_predictions := fun _ => Scenario.predictions;
     latest_submit_date := fun _ => epoch_plus_minutes 200;
     miner_registered_date := fun _ => epoch_plus_minutes (-1000);
     now := epoch_plus_minutes 10000 |}.

(** A registry that knows the event [ifgames-e1], open for submissions,
    and two replies: one answers it, the other names an unknown event. *)
Import ForwardLoop.

Definition open_integration : ProviderIntegration :=
  {| available_for_submission := fun _ => true |}.

Definition registry : EventProvider :=
  {| get_registered_event :=
       fun id => if bool_decide (id = "ifgames-e1"%string)
                 then Some Scenario.event else None;
     integrations :=
       fun market => if bool_decide (market = "ifgames"%string)
                     then Some open_integration else None |}.

Definition answered_reply : Response :=
  {| resp_events :=
       {[ "ifgames-e1"%string :=
            {| ed_probability := Some (7 / 10)%R;
               ed_miner_answered := Some true |} ]} |}.

Definition unknown_reply : Response :=
  {| resp_events :=
       {[ "ifgames-zz"%string :=
            {| ed_probability := None;
               ed_miner_answered := Some false |} ]} |}.

(** An export by the validator in slot 1 of a three-slot metagraph, answered
    with the status 200. *)
Import ScoreExport.

Definition exported_event : ExportedEvent :=
  {| exp_event := Scenario.event;
     exp_description := "will it rain";
     exp_starts := None;
     exp_resolve_date := Some (epoch_plus_minutes 600) |}.

Definition accepting_world : ExportWorld :=
  {| env_is_pytest := false;
     hotkeys := ["hk0"; "hk1"; "hk2"]%string;
     own_hotkey := "hk1";
     settle_now := epoch_plus_minutes 700;
     spec_version := "1040";
     post_status := fun _ => Some 200 |}.

(** The same server in front of the two-slot metagraph of the scenario. *)
Definition scenario_world : ExportWorld :=
  {| env_is_pytest := false;
     hotkeys := ["hk0"; "hk1"]%string;
     own_hotkey := "hk1";
     settle_now := epoch_plus_minutes 700;
     spec_version := "1040";
     post_status := fun _ => Some 200 |}.

End Cases.

(* ===================================================================== *)
(** * Properties *)
(* ===================================================================== *)

Import Scoring.

Section IntervalClockFacts.

Lemma width_pos : 0 < CLUSTERED_SUBMISSIONS_INTERVAL_MINUTES.
Proof. reflexivity. Qed.

Lemma interval_start_multiple (m : Z) :
  interval_start m mod CLUSTERED_SUBMISSIONS_INTERVAL_MINUTES = 0.
Proof.
  unfold interval_start.
  rewrite Zminus_mod_idemp_r, Z.sub_diag. reflexivity.
Qed.

Lemma interval_start_div (m : Z) :
  interval_start m =
  CLUSTERED_SUBMISSIONS_INTERVAL_MINUTES * (m / CLUSTERED_SUBMISSIONS_INTERVAL_MINUTES).
Proof.
  unfold interval_start.
  pose proof (Z.div_mod m CLUSTERED_SUBMISSIONS_INTERVAL_MINUTES) as H.
  specialize (H ltac:(discriminate)). lia.
Qed.

Lemma interval_start_mono (a b : Z) :
  a <= b -> interval_start a <= interval_start b.
Proof.
  intros Hab. rewrite !interval_start_div.
  apply Z.mul_le_mono_nonneg_l; [discriminate |].
  apply Z.div_le_mono; [reflexivity | assumption].
Qed.

Lemma minutes_since_epoch_mono (s t : datetime) :
  s <= t -> minutes_since_epoch s <= minutes_since_epoch t.
Proof.
  intros Hst. unfold minutes_since_epoch.
  apply Z.div_le_mono; [reflexivity |].
  apply Z.quot_le_mono; [reflexivity | assumption].
Qed.

Lemma get_interval_start_minutes_eq (now : datetime) :
  get_interval_start_minutes now = interval_start (minutes_since_epoch now).
Proof. reflexivity. Qed.

Lemma interval_start_unique (t s : Z) :
  s mod CLUSTERED_SUBMISSIONS_INTERVAL_MINUTES = 0 ->
  s <= t < s + CLUSTERED_SUBMISSIONS_INTERVAL_MINUTES ->
  s = interval_start t.
Proof.
  intros Hs Ht. rewrite interval_start_div.
  apply Z.mod_divide in Hs; [| discriminate].
  destruct Hs as [k ->].
  assert (t / CLUSTERED_SUBMISSIONS_INTERVAL_MINUTES = k) as ->; [| ring].
  symmetry. apply (Z.div_unique _ _ k (t - k * CLUSTERED_SUBMISSIONS_INTERVAL_MINUTES)).
  - left. lia.
  - ring.
Qed.

End IntervalClockFacts.

(** C5: for every timestamp [t] in minutes since the cluster epoch, interval
    alignment is idempotent, [intervalStart t <= t < intervalStart t + 240]
    for the width of 240 minutes, and the aligned start is the only multiple
    of 240 with that property, so [t] lies in exactly one interval; the
    dispatcher's [get_interval_start_minutes] is this alignment of the
    minute count of the clock. *)
Theorem interval_start_idempotent_bounds (t : Z) :
  interval_start (interval_start t) = interval_start t
  /\ interval_start t <= t < interval_start t + 240
  /\ CLUSTERED_SUBMISSIONS_INTERVAL_MINUTES = 240
  /\ (forall s : Z, s mod 240 = 0 -> s <= t < s + 240 -> s = interval_start t)
  /\ (forall now : datetime,
        get_interval_start_minutes now
        = interval_start (minutes_since_epoch now)).
Proof.
  pose proof (Z.mod_pos_bound t CLUSTERED_SUBMISSIONS_INTERVAL_MINUTES width_pos)
    as Hmod.
  split; [| split; [| split; [| split]]].
  - unfold interval_start at 1.
    rewrite interval_start_multiple. lia.
  - unfold interval_start.
    change CLUSTERED_SUBMISSIONS_INTERVAL_MINUTES with 240 in *. lia.
  - reflexivity.
  - intros s Hs Ht. apply interval_start_unique; assumption.
  - intros now. apply get_interval_start_minutes_eq.
Qed.

(* ===================================================================== *)
(** ** The scoring window *)
(* ===================================================================== *)

Section WindowFacts.

Variables registered cutoff now : datetime.

Local Abbreviation w := (scoring_window registered cutoff now).

Lemma window_start_eq :
  start_interval_start_minutes w = interval_start (minutes_since_epoch registered).
Proof. reflexivity. Qed.

Lemma window_finish_eq :
  effective_finish_start_minutes w
  = Z.min (interval_start (minutes_since_epoch cutoff))
          (interval_start (minutes_since_epoch now)).
Proof. reflexivity. Qed.

Lemma window_total_eq :
  total_intervals w
  = (effective_finish_start_minutes w - start_interval_start_minutes w)
    / CLUSTERED_SUBMISSIONS_INTERVAL_MINUTES.
Proof. reflexivity. Qed.

Lemma window_finish_min :
  effective_finish_start_minutes w
  = interval_start (minutes_since_epoch (Z.min cutoff now)).
Proof.
  rewrite window_finish_eq.
  destruct (Z.le_ge_cases cutoff now) as [H | H].
  - rewrite (Z.min_l cutoff now H).
    apply Z.min_l, interval_start_mono, minutes_since_epoch_mono, H.
  - rewrite (Z.min_r cutoff now H).
    apply Z.min_r, interval_start_mono, minutes_since_epoch_mono, H.
Qed.

Lemma window_span_exact :
  effective_finish_start_minutes w - start_interval_start_minutes w
  = CLUSTERED_SUBMISSIONS_INTERVAL_MINUTES * total_intervals w.
Proof.
  rewrite window_total_eq.
  apply Z.div_exact; [discriminate |].
  rewrite window_finish_min, window_start_eq.
  rewrite Zminus_mod, !interval_start_multiple. reflexivity.
Qed.

End WindowFacts.

Lemma py_range_length_exact (start step n : Z) :
  0 < step ->
  length (py_range start (start + step * n) step) = Z.to_nat n.
Proof.
  intros Hstep. unfold py_range.
  rewrite length_map, length_seq. f_equal.
  replace (start + step * n - start + step - 1) with (n * step + (step - 1)) by ring.
  rewrite Z.div_add_l by lia.
  rewrite Z.div_small by lia. lia.
Qed.

Lemma py_range_In (start stop step i : Z) :
  In i (py_range start stop step) ->
  exists k : nat,
    i = start + step * Z.of_nat k
    /\ (k < Z.to_nat ((stop - start + step - 1) / step))%nat.
Proof.
  unfold py_range. intros Hin.
  apply in_map_iff in Hin. destruct Hin as [k [Hk Hin]].
  exists k. split; [congruence |].
  apply in_seq in Hin. lia.
Qed.

Lemma window_intervals_In (w : Window) (n i : Z) :
  effective_finish_start_minutes w - start_interval_start_minutes w
  = CLUSTERED_SUBMISSIONS_INTERVAL_MINUTES * n ->
  In i (window_intervals w) ->
  exists k : Z,
    0 <= k < n
    /\ i = start_interval_start_minutes w
           + CLUSTERED_SUBMISSIONS_INTERVAL_MINUTES * k.
Proof.
  intros Hspan Hin. unfold window_intervals in Hin.
  apply py_range_In in Hin. destruct Hin as [k [Hi Hk]].
  exists (Z.of_nat k). split; [| exact Hi].
  replace (effective_finish_start_minutes w - start_interval_start_minutes w
           + CLUSTERED_SUBMISSIONS_INTERVAL_MINUTES - 1)
    with (n * CLUSTERED_SUBMISSIONS_INTERVAL_MINUTES
          + (CLUSTERED_SUBMISSIONS_INTERVAL_MINUTES - 1)) in Hk by lia.
  rewrite Z.div_add_l in Hk by discriminate.
  rewrite Z.div_small in Hk by (split; [discriminate | reflexivity]).
  lia.
Qed.


(* ===================================================================== *)
(** ** Arithmetic of the scores *)
(* ===================================================================== *)

Section ScoreArithmetic.

Local Open Scope R_scope.

Lemma clamp_bounds (ans : R) : 0 <= clamp ans <= 1.
Proof.
  unfold clamp, Rmax, Rmin.
  destruct (Rle_dec 1 ans); destruct (Rle_dec 0 _); lra.
Qed.

Lemma clamp_id (ans : R) : 0 <= ans <= 1 -> clamp ans = ans.
Proof.
  intros H. unfold clamp, Rmax, Rmin.
  destruct (Rle_dec 1 ans); destruct (Rle_dec 0 _); lra.
Qed.

Lemma brier_score_bounds (ans y : R) :
  0 <= y <= 1 -> 0 <= brier_score ans y <= 1.
Proof.
  intros Hy. unfold brier_score.
  pose proof (clamp_bounds ans) as Hc.
  set (d := clamp ans - y).
  assert (-1 <= d <= 1) as Hd by (unfold d; lra).
  simpl. nra.
Qed.

Lemma brier_score_half (y : R) :
  brier_score (1 / 2) y = 1 - (1 / 2 - y) ^ 2.
Proof. unfold brier_score. rewrite clamp_id by lra. reflexivity. Qed.

Lemma Rsum_shift (l : list R) (a : R) : fold_left Rplus l a = a + Rsum l.
Proof.
  unfold Rsum. revert a.
  induction l as [| x l IH]; intros a; simpl.
  - lra.
  - rewrite IH, (IH (0 + x)). lra.
Qed.

Lemma Rsum_nil : Rsum [] = 0.
Proof. reflexivity. Qed.

Lemma Rsum_cons (x : R) (l : list R) : Rsum (x :: l) = x + Rsum l.
Proof. unfold Rsum at 1. simpl. rewrite Rsum_shift. lra. Qed.

Lemma Rsum_app (l1 l2 : list R) : Rsum (l1 ++ l2) = Rsum l1 + Rsum l2.
Proof.
  induction l1 as [| x l1 IH]; simpl.
  - rewrite Rsum_nil. lra.
  - rewrite !Rsum_cons, IH. lra.
Qed.

Lemma Rsum_scale (l : list R) (d : R) :
  Rsum (map (fun x => x / d) l) = Rsum l / d.
Proof.
  induction l as [| x l IH]; simpl.
  - rewrite Rsum_nil. lra.
  - rewrite !Rsum_cons, IH. lra.
Qed.

Lemma Rsum_nonneg (l : list R) : Forall (fun x => 0 <= x) l -> 0 <= Rsum l.
Proof.
  induction 1 as [| x l Hx _ IH].
  - rewrite Rsum_nil. lra.
  - rewrite Rsum_cons. lra.
Qed.

Lemma Rsum_abs_nonneg (l : list R) :
  Forall (fun x => 0 <= x) l -> Rsum (map Rabs l) = Rsum l.
Proof.
  induction 1 as [| x l Hx _ IH]; simpl.
  - reflexivity.
  - rewrite !Rsum_cons, IH, Rabs_pos_eq by assumption. reflexivity.
Qed.

Lemma Rsum_ge_member (l : list R) (x : R) :
  Forall (fun z => 0 <= z) l -> In x l -> x <= Rsum l.
Proof.
  induction 1 as [| z l Hz Hl IH]; intros Hin.
  - destruct Hin.
  - rewrite Rsum_cons. destruct Hin as [-> | Hin].
    + pose proof (Rsum_nonneg l Hl). lra.
    + specialize (IH Hin). lra.
Qed.

Lemma exp_nonpos_le_1 (x : R) : x <= 0 -> exp x <= 1.
Proof.
  intros Hx. rewrite <- exp_0.
  destruct (Req_dec x 0) as [-> | Hne]; [lra |].
  left. apply exp_increasing. lra.
Qed.

Lemma exp_pos_gt_1 (x : R) : 0 < x -> 1 < exp x.
Proof. intros Hx. rewrite <- exp_0. apply exp_increasing, Hx. Qed.

End ScoreArithmetic.

(* ===================================================================== *)
(** ** The general scoring branch *)
(* ===================================================================== *)

Section GeneralBranch.

Local Open Scope R_scope.

Lemma Rdiv_unit_interval (a b : R) : 0 <= a <= b -> 0 < b -> 0 <= a / b <= 1.
Proof.
  intros Hab Hb.
  pose proof (Rinv_0_lt_compat b Hb) as Hinv.
  assert (b * / b = 1) as Hone by (apply Rinv_r; lra).
  unfold Rdiv. split.
  - apply Rmult_le_pos; lra.
  - rewrite <- Hone. apply Rmult_le_compat_r; lra.
Qed.

Lemma interval_weight_pos (w : Window) (i : Z) : 0 < interval_weight w i.
Proof.
  unfold interval_weight. case_bool_decide; [lra | apply exp_pos].
Qed.

Lemma ratio_ge_1 (total k : Z) :
  (0 <= k < total)%Z -> 1 <= IZR total / IZR (total - k).
Proof.
  intros Hk.
  assert (0 < IZR (total - k)) as Hd by (apply IZR_lt; lia).
  assert (0 <= IZR k) as Hk0 by (apply IZR_le; lia).
  replace (IZR total) with (IZR (total - k) + IZR k)
    by (rewrite <- plus_IZR; f_equal; lia).
  unfold Rdiv. rewrite Rmult_plus_distr_r, Rinv_r by lra.
  pose proof (Rinv_0_lt_compat _ Hd) as Hinv.
  assert (0 <= IZR k * / IZR (total - k)) by (apply Rmult_le_pos; lra).
  lra.
Qed.

Lemma current_interval_no_eq (start k : Z) :
  ((start + CLUSTERED_SUBMISSIONS_INTERVAL_MINUTES * k - start)
   / CLUSTERED_SUBMISSIONS_INTERVAL_MINUTES = k)%Z.
Proof.
  replace (start + CLUSTERED_SUBMISSIONS_INTERVAL_MINUTES * k - start)%Z
    with (k * CLUSTERED_SUBMISSIONS_INTERVAL_MINUTES)%Z by ring.
  apply Z.div_mul. discriminate.
Qed.

(** Inside the window the loop never divides by zero and no weight
    exceeds 1. *)
Lemma interval_weight_le_1 (w : Window) (i : Z) :
  (effective_finish_start_minutes w - start_interval_start_minutes w
   = CLUSTERED_SUBMISSIONS_INTERVAL_MINUTES * total_intervals w)%Z ->
  In i (window_intervals w) ->
  interval_weight w i <= 1
  /\ (total_intervals w
      - (i - start_interval_start_minutes w)
        / CLUSTERED_SUBMISSIONS_INTERVAL_MINUTES <> 0)%Z.
Proof.
  intros Hspan Hin.
  destruct (window_intervals_In w _ i Hspan Hin) as [k [Hk ->]].
  unfold interval_weight. rewrite current_interval_no_eq.
  split; [| lia].
  case_bool_decide; [lra |].
  apply exp_nonpos_le_1.
  pose proof (ratio_ge_1 (total_intervals w) k Hk). lra.
Qed.

Lemma interval_term_bounds (wk : R) (ans : option R) (y : R) :
  0 <= y <= 1 -> 0 <= wk -> 0 <= interval_term wk ans y <= wk.
Proof.
  intros Hy Hwk. destruct ans as [a |]; simpl; [| lra].
  pose proof (brier_score_bounds a y Hy). nra.
Qed.

Lemma interval_step_eq (y : R) (w : Window) (reg : datetime)
    (pi : option (gmap Z IntervalData)) (mk : list R) (ws : R) (i : Z) :
  interval_step y w reg pi (mk, ws) i
  = (mk ++ [interval_term (interval_weight w i) (interval_answer reg pi i) y],
     ws + interval_weight w i).
Proof. reflexivity. Qed.

Lemma general_loop_invariant (y : R) (w : Window) (reg : datetime)
    (pi : option (gmap Z IntervalData)) (l : list Z) (acc : list R * R) :
  0 <= y <= 1 ->
  0 <= Rsum (fst acc) <= snd acc ->
  0 <= Rsum (fst (fold_left (interval_step y w reg pi) l acc))
    <= snd (fold_left (interval_step y w reg pi) l acc).
Proof.
  intros Hy. revert acc.
  induction l as [| i l IH]; intros [mk ws] Hacc; cbn [fold_left].
  - exact Hacc.
  - apply IH. rewrite interval_step_eq. simpl in *.
    rewrite Rsum_app, Rsum_cons, Rsum_nil.
    pose proof (interval_weight_pos w i) as Hw.
    pose proof (interval_term_bounds (interval_weight w i)
                  (interval_answer reg pi i) y Hy (Rlt_le _ _ Hw)).
    lra.
Qed.

Lemma general_score_bounds (y : R) (w : Window) (registered reg : datetime)
    (pi : option (gmap Z IntervalData)) :
  0 <= y <= 1 -> 0 <= general_score y w registered reg pi <= 1.
Proof.
  intros Hy. unfold general_score.
  destruct (bool_decide (reg < registered)%Z && py_not pi); [lra |].
  pose proof (general_loop_invariant y w reg pi (window_intervals w) ([], 0) Hy)
    as Hinv.
  destruct (fold_left _ _ _) as [mk ws]. simpl in Hinv.
  specialize (Hinv ltac:(rewrite Rsum_nil; lra)).
  destruct (Rlt_dec 0 ws); [| lra].
  apply Rdiv_unit_interval; assumption.
Qed.

Lemma interval_answer_too_new (reg : datetime)
    (pi : option (gmap Z IntervalData)) (i : Z) :
  (epoch_plus_minutes (i + CLUSTERED_SUBMISSIONS_INTERVAL_MINUTES) < reg)%Z ->
  interval_answer reg pi i = Some (1 / 2).
Proof.
  intros H. unfold interval_answer. rewrite bool_decide_eq_true_2; done.
Qed.

Lemma interval_answer_recorded (reg : datetime)
    (pi : option (gmap Z IntervalData)) (i : Z) :
  ¬ (epoch_plus_minutes (i + CLUSTERED_SUBMISSIONS_INTERVAL_MINUTES) < reg)%Z ->
  interval_answer reg pi i
  = (default ∅ pi !! i) ≫= interval_agg_prediction.
Proof.
  intros H. unfold interval_answer. rewrite bool_decide_eq_false_2 by done.
  destruct (default ∅ pi !! i); reflexivity.
Qed.

End GeneralBranch.

(* ===================================================================== *)
(** ** Claims on the general branch *)
(* ===================================================================== *)

Section GeneralBranchClaims.

Local Open Scope R_scope.

(** C1, as the specification states it, fails: in the scenario window
    [[0, 480)] a peer registered before the event that answered in interval
    240 only has no recorded answer for interval 0, whose end does not
    precede its registration; that interval adds 0 to the weighted sum, not
    its weight times the Brier-complement of 0.5 (which is 0.75 here). *)
Lemma silent_interval_adds_zero :
  let w := scoring_window (epoch_plus_minutes 0) (epoch_plus_minutes 480)
                          (epoch_plus_minutes 10000) in
  let reg := epoch_plus_minutes (-1000) in
  let pi := Some Scenario.late_answer in
  In 0%Z (window_intervals w)
  /\ default ∅ pi !! 0%Z = None
  /\ interval_weight w 0 = 1
  /\ interval_term (interval_weight w 0) (interval_answer reg pi 0) 1 = 0
  /\ interval_weight w 0 * brier_score (1 / 2) 1 = 3 / 4
  /\ interval_term (interval_weight w 0) (interval_answer reg pi 0) 1
     <> interval_weight w 0 * brier_score (1 / 2) 1.
Proof.
  intros w reg pi.
  assert (interval_weight w 0 = 1) as Hw.
  { unfold interval_weight. rewrite bool_decide_eq_true_2; [reflexivity |].
    vm_compute. discriminate. }
  assert (interval_answer reg pi 0 = None) as Ha.
  { rewrite interval_answer_recorded by (vm_compute; discriminate).
    reflexivity. }
  assert (brier_score (1 / 2) 1 = 3 / 4) as Hb.
  { rewrite brier_score_half. lra. }
  split; [| split; [| split; [| split; [| split]]]].
  - vm_compute. left. reflexivity.
  - reflexivity.
  - exact Hw.
  - rewrite Ha. reflexivity.
  - rewrite Hw, Hb. lra.
  - rewrite Ha, Hw, Hb. simpl. lra.
Qed.

(** C1, amended: in the general branch an interval whose end precedes the
    peer's registration is scored with the answer 0.5 and adds its weight
    times the Brier-complement of 0.5 to the weighted sum, whatever is
    recorded for it; any other interval without a recorded answer adds 0 to
    the weighted sum; an interval with a recorded answer adds its weight
    times the Brier-complement of the clamped answer.  In all three cases
    the weight enters the sum of weights. *)
Theorem interval_contribution (y : R) (w : Window) (reg : datetime)
    (pi : option (gmap Z IntervalData)) (mk : list R) (ws : R) (i : Z) :
  let wk := interval_weight w i in
  let interval_end_date := epoch_plus_minutes (i + 240) in
  let recorded := (default ∅ pi !! i) ≫= interval_agg_prediction in
  ((interval_end_date < reg)%Z ->
     interval_answer reg pi i = Some (1 / 2)
     /\ interval_step y w reg pi (mk, ws) i
        = (mk ++ [wk * (1 - (1 / 2 - y) ^ 2)], ws + wk))
  /\ (¬ (interval_end_date < reg)%Z -> recorded = None ->
        interval_answer reg pi i = None
        /\ interval_step y w reg pi (mk, ws) i = (mk ++ [0], ws + wk))
  /\ (forall a : R,
        ¬ (interval_end_date < reg)%Z -> recorded = Some a ->
        interval_step y w reg pi (mk, ws) i
        = (mk ++ [wk * (1 - (clamp a - y) ^ 2)], ws + wk)).
Proof.
  intros wk interval_end_date recorded.
  rewrite interval_step_eq. fold wk.
  split; [| split].
  - intros Hnew.
    rewrite (interval_answer_too_new reg pi i Hnew).
    split; [reflexivity |].
    simpl interval_term. rewrite brier_score_half. reflexivity.
  - intros Hold Hnone.
    rewrite (interval_answer_recorded reg pi i Hold).
    fold recorded. rewrite Hnone. split; reflexivity.
  - intros a Hold Hsome.
    rewrite (interval_answer_recorded reg pi i Hold).
    fold recorded. rewrite Hsome. reflexivity.
Qed.

(** The scenario window has an interval that ends before a peer registered
    at minute 1000. *)
Lemma interval_contribution_scenario :
  interval_answer (epoch_plus_minutes 1000) (Some Scenario.late_answer) 0
  = Some (1 / 2)
  /\ interval_step 1
       (scoring_window (epoch_plus_minutes 0) (epoch_plus_minutes 480)
          (epoch_plus_minutes 10000))
       (epoch_plus_minutes 1000) (Some Scenario.late_answer) ([], 0) 0
     = ([] ++ [interval_weight
                 (scoring_window (epoch_plus_minutes 0) (epoch_plus_minutes 480)
                    (epoch_plus_minutes 10000)) 0
               * (1 - (1 / 2 - 1) ^ 2)],
        0 + interval_weight
              (scoring_window (epoch_plus_minutes 0) (epoch_plus_minutes 480)
                 (epoch_plus_minutes 10000)) 0).
Proof.
  apply (proj1 (interval_contribution 1
                  (scoring_window (epoch_plus_minutes 0) (epoch_plus_minutes 480)
                     (epoch_plus_minutes 10000))
                  (epoch_plus_minutes 1000) (Some Scenario.late_answer)
                  [] 0 0%Z)).
  reflexivity.
Defined.

(** C9: in the general branch, for a ground truth in [[0,1]], the raw score
    of every peer lies in [[0,1]]; every interval of the window has a weight
    in [(0,1]] and adds between 0 and its weight to the weighted sum; an
    interval without an answer adds 0 while its weight still enters the sum
    of weights; the weighted sum never exceeds the sum of weights, and the
    score is 0 when the sum of weights is not positive. *)
Theorem general_score_in_unit_interval (v : Validator) (pe : ProviderEvent)
    (y : R) (predictions : gmap nat (gmap Z IntervalData)) (uid : nat) :
  0 <= y <= 1 ->
  effective_market_type pe <> "azuro"%string ->
  let w := scoring_window (registered_date pe) (latest_submit_date v pe)
                          (now v) in
  let reg := miner_registered_date v uid in
  let pi := predictions !! uid in
  0 <= miner_score v pe y predictions uid <= 1
  /\ miner_score v pe y predictions uid
     = general_score y w (registered_date pe) reg pi
  /\ (forall i : Z, In i (window_intervals w) ->
        0 < interval_weight w i <= 1
        /\ 0 <= interval_term (interval_weight w i) (interval_answer reg pi i) y
             <= interval_weight w i
        /\ (interval_answer reg pi i = None ->
            forall (mk : list R) (ws : R),
              interval_step y w reg pi (mk, ws) i
              = (mk ++ [0], ws + interval_weight w i)))
  /\ (forall (mk : list R) (ws : R),
        fold_left (interval_step y w reg pi) (window_intervals w) ([], 0)
        = (mk, ws) ->
        0 <= Rsum mk <= ws
        /\ (¬ 0 < ws -> general_score y w (registered_date pe) reg pi = 0)).
Proof.
  intros Hy Hmarket w reg pi.
  assert (miner_score v pe y predictions uid
          = general_score y w (registered_date pe) reg pi) as Hscore.
  { unfold miner_score. rewrite bool_decide_eq_false_2 by assumption.
    reflexivity. }
  split; [| split; [exact Hscore | split]].
  - rewrite Hscore. apply general_score_bounds, Hy.
  - intros i Hin.
    pose proof (interval_weight_pos w i) as Hpos.
    pose proof (window_span_exact (registered_date pe) (latest_submit_date v pe)
                  (now v)) as Hspan.
    destruct (interval_weight_le_1 w i Hspan Hin) as [Hle _].
    split; [lra |]. split.
    + apply interval_term_bounds; [exact Hy | lra].
    + intros Hnone mk ws. rewrite interval_step_eq, Hnone. reflexivity.
  - intros mk ws Hfold.
    pose proof (general_loop_invariant y w reg pi (window_intervals w)
                  ([], 0) Hy) as Hinv.
    rewrite Hfold in Hinv. simpl in Hinv.
    split; [apply Hinv; rewrite Rsum_nil; lra |].
    intros Hws. unfold general_score.
    destruct (bool_decide (reg < registered_date pe)%Z && py_not pi);
      [reflexivity |].
    rewrite Hfold. destruct (Rlt_dec 0 ws); [contradiction | reflexivity].
Qed.

(** The scenario of the specification satisfies the hypotheses of
    [general_score_in_unit_interval]. *)
Lemma general_score_in_unit_interval_scenario :
  0 <= miner_score Scenario.validator Scenario.event 1 Scenario.predictions 0
    <= 1.
Proof.
  apply (general_score_in_unit_interval Scenario.validator Scenario.event 1
           Scenario.predictions 0).
  - lra.
  - discriminate.
Defined.

End GeneralBranchClaims.

(* ===================================================================== *)
(** ** The instantaneous branch *)
(* ===================================================================== *)

Section AzuroBranch.

Local Open Scope R_scope.

Lemma max_list_spec (l : list Z) :
  l <> [] ->
  exists k : Z,
    foldr (fun k acc => Some (from_option (Z.max k) k acc)) None l = Some k
    /\ In k l
    /\ (forall k' : Z, In k' l -> (k' <= k)%Z).
Proof.
  induction l as [| x l IH]; [congruence |]. intros _.
  destruct l as [| x' l].
  - exists x. simpl. split; [reflexivity |].
    split; [left; reflexivity |]. intros k' [-> | []]. lia.
  - destruct (IH ltac:(discriminate)) as [k [Hk [Hin Hmax]]].
    cbn [foldr] in *. rewrite Hk. cbn [from_option].
    exists (Z.max x k). split; [reflexivity |]. split.
    + destruct (Z.max_spec x k) as [[_ ->] | [_ ->]];
        [right; exact Hin | left; reflexivity].
    + intros k' [-> | Hin']; [lia |]. specialize (Hmax k' Hin'). lia.
Qed.

Lemma max_key_spec {A : Type} (m : gmap Z A) :
  m <> ∅ ->
  exists k : Z,
    max_key m = Some k
    /\ is_Some (m !! k)
    /\ (forall k' : Z, is_Some (m !! k') -> (k' <= k)%Z).
Proof.
  intros Hne. unfold max_key.
  assert (elements (dom m) <> []) as Hl.
  { intros Hnil. apply Hne. apply elements_empty_inv in Hnil.
    apply dom_empty_inv_L. apply leibniz_equiv. exact Hnil. }
  destruct (max_list_spec _ Hl) as [k [Hk [Hin Hmax]]].
  exists k. split; [exact Hk |]. split.
  - apply elem_of_dom, elem_of_elements, list_elem_of_In, Hin.
  - intros k' Hk'. apply Hmax, list_elem_of_In, elem_of_elements, elem_of_dom, Hk'.
Qed.

Lemma azuro_pick_spec (m : gmap Z IntervalData) :
  m <> ∅ ->
  exists (k : Z) (d : IntervalData),
    m !! k = Some d
    /\ (is_Some (m !! 0%Z) -> k = 0%Z)
    /\ (m !! 0%Z = None -> forall k' : Z, is_Some (m !! k') -> (k' <= k)%Z)
    /\ azuro_pick m = interval_agg_prediction d.
Proof.
  intros Hne. unfold azuro_pick.
  destruct (m !! 0%Z) as [d0 |] eqn:H0.
  - exists 0%Z, d0. repeat split; try assumption. intros Hn. discriminate.
  - destruct (max_key_spec m Hne) as [k [Hk [[d Hd] Hmax]]].
    exists k, d.
    split; [exact Hd |]. split; [intros [x Hx]; discriminate |].
    split; [intros _; exact Hmax |].
    rewrite Hk. simpl. rewrite Hd. reflexivity.
Qed.

End AzuroBranch.

Section AzuroClaims.

Local Open Scope R_scope.

(** C3, as the specification states it, fails: for an instantaneous event
    whose window starts at interval 240, a peer registered before the cutoff
    that answered 0.9 in interval 240 (the first of the window) and 0.2 in
    interval 480 is scored on 0.2, the answer of the latest interval: the
    branch looks for the key 0, not for the first interval of the window. *)
Lemma azuro_ignores_first_window_interval :
  let v := Scenario.azuro_validator in
  let pe := Scenario.azuro_event in
  let w := scoring_window (registered_date pe) (latest_submit_date v pe)
                          (now v) in
  effective_market_type pe = "azuro"%string
  /\ (miner_registered_date v 0 < latest_submit_date v pe)%Z
  /\ start_interval_start_minutes w = 240%Z
  /\ get_event_predictions v pe !! 0%nat = Some Scenario.azuro_answers
  /\ Scenario.azuro_answers !! start_interval_start_minutes w
     = Some (Scenario.recorded (9 / 10))
  /\ miner_score v pe 1 (get_event_predictions v pe) 0 = 36 / 100
  /\ miner_score v pe 1 (get_event_predictions v pe) 0
     <> brier_score (9 / 10) 1.
Proof.
  intros v pe w.
  assert (miner_score v pe 1 (get_event_predictions v pe) 0
          = brier_score (2 / 10) 1) as Hscore by reflexivity.
  assert (brier_score (2 / 10) 1 = 36 / 100) as H2.
  { unfold brier_score. rewrite clamp_id by lra. lra. }
  assert (brier_score (9 / 10) 1 = 99 / 100) as H9.
  { unfold brier_score. rewrite clamp_id by lra. lra. }
  split; [reflexivity |]. split; [reflexivity |].
  split; [reflexivity |]. split; [reflexivity |].
  split; [reflexivity |]. split.
  - rewrite Hscore. exact H2.
  - rewrite Hscore, H2, H9. lra.
Qed.

(** C3, amended: for a settled instantaneous event and a peer that
    registered before the cutoff and has at least one recorded interval, the
    score is the Brier-complement of the clamped answer recorded under the
    interval key 0 when that key is present, and otherwise of the answer of
    the latest recorded interval (the greatest key); it is 0 when that
    answer is null; no weight enters and the scoring window plays no part. *)
Theorem azuro_score_spec (v : Validator) (pe : ProviderEvent) (y : R)
    (predictions : gmap nat (gmap Z IntervalData)) (uid : nat)
    (m : gmap Z IntervalData) :
  effective_market_type pe = "azuro"%string ->
  (miner_registered_date v uid < latest_submit_date v pe)%Z ->
  predictions !! uid = Some m ->
  m <> ∅ ->
  exists (k : Z) (d : IntervalData),
    m !! k = Some d
    /\ (is_Some (m !! 0%Z) -> k = 0%Z)
    /\ (m !! 0%Z = None -> forall k' : Z, is_Some (m !! k') -> (k' <= k)%Z)
    /\ miner_score v pe y predictions uid
       = match interval_agg_prediction d with
         | Some a => 1 - (clamp a - y) ^ 2
         | None => 0
         end.
Proof.
  intros Hmarket Hreg Hm Hne.
  destruct (azuro_pick_spec m Hne) as [k [d [Hd [H0 [Hmax Hpick]]]]].
  exists k, d. split; [exact Hd |]. split; [exact H0 |].
  split; [exact Hmax |].
  unfold miner_score. rewrite bool_decide_eq_true_2 by assumption.
  unfold azuro_score. rewrite Hm.
  rewrite bool_decide_eq_false_2 by lia.
  replace (py_not (Some m)) with false
    by (symmetry; apply bool_decide_eq_false_2; exact Hne).
  rewrite andb_false_r.
  change (default ∅ (Some m)) with m.
  rewrite Hpick. reflexivity.
Qed.

(** The hypotheses of [azuro_score_spec] hold in the scenario. *)
Lemma azuro_score_spec_scenario :
  exists (k : Z) (d : IntervalData),
    Scenario.azuro_answers !! k = Some d
    /\ (is_Some (Scenario.azuro_answers !! 0%Z) -> k = 0%Z)
    /\ (Scenario.azuro_answers !! 0%Z = None ->
        forall k' : Z, is_Some (Scenario.azuro_answers !! k') -> (k' <= k)%Z)
    /\ miner_score Scenario.azuro_validator Scenario.azuro_event 1
         {[ 0%nat := Scenario.azuro_answers ]} 0
       = match interval_agg_prediction d with
         | Some a => 1 - (clamp a - 1) ^ 2
         | None => 0
         end.
Proof.
  apply (azuro_score_spec Scenario.azuro_validator Scenario.azuro_event 1
           {[ 0%nat := Scenario.azuro_answers ]} 0%nat Scenario.azuro_answers).
  - reflexivity.
  - reflexivity.
  - reflexivity.
  - intros Hempty.
    assert (Scenario.azuro_answers !! 240%Z = None) as Hnone
      by (rewrite Hempty; apply lookup_empty).
    discriminate Hnone.
Defined.

End AzuroClaims.

(* ===================================================================== *)
(** ** The settlement hook *)
(* ===================================================================== *)

Section SettlementHook.

(** C2, as the specification states it, fails: for a settled event whose
    ground truth is still unknown the hook returns [True], so the event
    leaves the active registry and is not retried; the same holds for a
    settled event without submissions; and for a discarded event the hook
    returns [False] after removing the event itself. *)
Lemma settled_without_answer_returns_true :
  status Scenario.event_without_answer = SETTLED
  /\ answer Scenario.event_without_answer = None
  /\ on_event_update Scenario.validator Scenario.event_without_answer
     = (true, [])
  /\ fst (on_event_update Scenario.validator Scenario.event_without_answer)
     <> false
  /\ status Scenario.event_discarded = DISCARDED
  /\ fst (on_event_update Scenario.validator Scenario.event_discarded)
     <> true.
Proof.
  split; [reflexivity |]. split; [reflexivity |]. split; [reflexivity |].
  split; [discriminate |]. split; [reflexivity | discriminate].
Qed.

(** C2, amended: the hook returns [True] for every settled event: after
    scoring it (one score update and one export), and also at once, without
    scoring, when the ground truth is missing or when no submission exists;
    for a discarded event it removes the event from the registry itself and
    returns [False]; for an event in any other state it returns [False] and
    does nothing. *)
Theorem on_event_update_flag (v : Validator) (pe : ProviderEvent) :
  (status pe = SETTLED -> fst (on_event_update v pe) = true)
  /\ (status pe = SETTLED ->
      answer pe = None \/ get_event_predictions v pe = ∅ ->
      on_event_update v pe = (true, []))
  /\ (forall y : R,
        status pe = SETTLED -> answer pe = Some y ->
        get_event_predictions v pe <> ∅ ->
        exists (scores : list R) (data : list (nat * R * R)),
          on_event_update v pe
          = (true, [UpdateScores scores (seq 0 (metagraph_n v));
                    ExportScores pe data])
          /\ scores
             = normalize_l1
                 (sharpen (raw_scores v pe y (get_event_predictions v pe))))
  /\ (status pe = DISCARDED ->
      on_event_update v pe = (false, [RemoveEvent pe]))
  /\ (status pe = OPEN -> on_event_update v pe = (false, [])).
Proof.
  unfold on_event_update.
  split; [| split; [| split; [| split]]].
  - intros ->. destruct (answer pe); [| reflexivity].
    case_bool_decide; reflexivity.
  - intros -> [Hnone | Hempty].
    + rewrite Hnone. reflexivity.
    + destruct (answer pe); [| reflexivity].
      rewrite bool_decide_eq_true_2 by assumption. reflexivity.
  - intros y -> -> Hne.
    rewrite bool_decide_eq_false_2 by assumption.
    eexists _, _. split; reflexivity.
  - intros ->. reflexivity.
  - intros ->. reflexivity.
Qed.

(** The three states occur in the scenario. *)
Lemma on_event_update_flag_scenario :
  fst (on_event_update Scenario.validator Scenario.event) = true
  /\ on_event_update Scenario.validator Scenario.event_discarded
     = (false, [RemoveEvent Scenario.event_discarded]).
Proof.
  split.
  - apply (proj1 (on_event_update_flag Scenario.validator Scenario.event)).
    reflexivity.
  - apply (proj1 (proj2 (proj2 (proj2
             (on_event_update_flag Scenario.validator
                Scenario.event_discarded))))).
    reflexivity.
Defined.

End SettlementHook.

(* ===================================================================== *)
(** ** Sharpening and normalisation *)
(* ===================================================================== *)

Section Normalisation.

Local Open Scope R_scope.

Lemma all_nonpositive_false (scores : list R) :
  Exists (fun s => 0 < s) scores -> all_nonpositive scores = false.
Proof.
  unfold all_nonpositive.
  induction 1 as [s l Hs | s l _ IH]; simpl.
  - destruct (Rle_dec s 0); [lra | reflexivity].
  - rewrite IH. apply andb_false_r.
Qed.

Lemma all_nonpositive_zero (scores : list R) :
  Forall (fun s => s = 0) scores -> all_nonpositive scores = true.
Proof.
  unfold all_nonpositive.
  induction 1 as [| s l Hs _ IH]; simpl; [reflexivity |].
  rewrite IH. destruct (Rle_dec s 0); [reflexivity | lra].
Qed.

Lemma sharpen_entry_nonneg (s : R) : 0 <= sharpen_entry s.
Proof.
  unfold sharpen_entry. destruct (Req_dec_T s 0); [lra |].
  pose proof (exp_pos (30 * s)). lra.
Qed.

Lemma sharpen_entry_gt_1 (s : R) : 0 < s -> 1 < sharpen_entry s.
Proof.
  intros Hs. unfold sharpen_entry. destruct (Req_dec_T s 0); [lra |].
  pose proof (exp_pos_gt_1 (30 * s) ltac:(lra)). lra.
Qed.

Lemma sharpen_positive (scores : list R) :
  Exists (fun s => 0 < s) scores ->
  sharpen scores = map sharpen_entry scores.
Proof.
  intros H. unfold sharpen. rewrite (all_nonpositive_false _ H). reflexivity.
Qed.

Lemma normalize_eps_small : 0 < normalize_eps < 1.
Proof. unfold normalize_eps. lra. Qed.

Lemma normalize_l1_sum (v : list R) :
  Forall (fun x => 0 <= x) v -> 1 <= Rsum v ->
  Rsum (normalize_l1 v) = 1.
Proof.
  intros Hpos Hsum. unfold normalize_l1, l1_norm.
  rewrite (Rsum_abs_nonneg v Hpos).
  pose proof normalize_eps_small as Heps.
  rewrite Rmax_left by lra.
  rewrite Rsum_scale. unfold Rdiv. apply Rinv_r. lra.
Qed.

Lemma normalize_l1_zero (v : list R) :
  Forall (fun x => x = 0) v -> Forall (fun x => x = 0) (normalize_l1 v).
Proof.
  intros Hz. unfold normalize_l1.
  apply Forall_map. eapply Forall_impl; [exact Hz |].
  intros x ->. unfold Rdiv. apply Rmult_0_l.
Qed.

(** C6: for the vector of raw scores of a settled event, if at least one
    raw score is positive then, after the non-zero entries are replaced by
    [exp(30 * score)] and the vector is L1-normalised, the normalised scores
    sum to 1; if every raw score is 0, every normalised score is 0. *)
Theorem normalized_scores_sum (scores : list R) :
  (Exists (fun s => 0 < s) scores ->
   sharpen scores
   = map (fun s => if Req_dec_T s 0 then s else 0 * s + 1 * exp (30 * s))
         scores
   /\ Rsum (normalize_l1 (sharpen scores)) = 1)
  /\ (Forall (fun s => s = 0) scores ->
      sharpen scores = scores
      /\ Forall (fun s => s = 0) (normalize_l1 (sharpen scores))).
Proof.
  split.
  - intros Hex. rewrite (sharpen_positive _ Hex).
    split; [reflexivity |].
    apply normalize_l1_sum.
    + apply Forall_map, Forall_forall. intros s _. apply sharpen_entry_nonneg.
    + apply Exists_exists in Hex. destruct Hex as [s [Hin Hs]].
      pose proof (sharpen_entry_gt_1 s Hs) as Hgt.
      assert (sharpen_entry s <= Rsum (map sharpen_entry scores)).
      { apply Rsum_ge_member.
        - apply Forall_map, Forall_forall. intros z _.
          apply sharpen_entry_nonneg.
        - apply in_map, list_elem_of_In, Hin. }
      lra.
  - intros Hz. unfold sharpen. rewrite (all_nonpositive_zero _ Hz).
    split; [reflexivity |]. apply normalize_l1_zero, Hz.
Qed.

(** A vector with a positive entry. *)
Lemma normalized_scores_sum_example :
  Rsum (normalize_l1 (sharpen [1; 0])) = 1.
Proof.
  apply (proj1 (normalized_scores_sum [1; 0])).
  constructor. lra.
Defined.

End Normalisation.

(* ===================================================================== *)
(** ** The end-to-end scenario *)
(* ===================================================================== *)

Section EndToEnd.

Local Open Scope R_scope.

Lemma scenario_window :
  scoring_window (registered_date Scenario.event)
    (latest_submit_date Scenario.validator Scenario.event)
    (now Scenario.validator)
  = {| start_interval_start_minutes := 0;
       effective_finish_start_minutes := 480;
       total_intervals := 2 |}.
Proof. reflexivity. Qed.

Lemma scenario_second_weight :
  interval_weight
    {| start_interval_start_minutes := 0;
       effective_finish_start_minutes := 480;
       total_intervals := 2 |} 240
  = exp (-1).
Proof.
  unfold interval_weight. rewrite bool_decide_eq_false_2 by (vm_compute; tauto).
  f_equal. cbn [total_intervals start_interval_start_minutes].
  replace ((240 - 0) / CLUSTERED_SUBMISSIONS_INTERVAL_MINUTES)%Z with 1%Z
    by reflexivity.
  replace (2 - 1)%Z with 1%Z by reflexivity. lra.
Qed.

(** The raw scores of the scenario of section 8 of the specification:
    peer 0 gets [(0.99 * 1 + 0.96 * exp(-1)) / (1 + exp(-1))], the silent
    peer 1 gets 0. *)
Example scenario_raw_scores :
  raw_scores Scenario.validator Scenario.event 1 Scenario.predictions
  = [(99 / 100 + exp (-1) * (96 / 100)) / (1 + exp (-1)); 0].
Proof.
  unfold raw_scores. cbn [metagraph_n Scenario.validator seq map].
  replace (miner_score Scenario.validator Scenario.event 1 Scenario.predictions 1)
    with 0 by reflexivity.
  f_equal.
  unfold miner_score. rewrite bool_decide_eq_false_2 by discriminate.
  rewrite scenario_window.
  unfold general_score.
  replace (bool_decide _ && py_not _) with false by reflexivity.
  change (window_intervals _) with [0%Z; 240%Z].
  cbn [fold_left]. rewrite !interval_step_eq.
  replace (interval_weight _ 0) with 1 by reflexivity.
  rewrite scenario_second_weight.
  replace (interval_answer _ _ 0) with (Some (9 / 10)) by reflexivity.
  replace (interval_answer _ _ 240) with (Some (8 / 10)) by reflexivity.
  cbn [interval_term app].
  pose proof (exp_pos (-1)) as Hexp.
  destruct (Rlt_dec 0 (0 + 1 + exp (-1))) as [_ | Hn]; [| lra].
  rewrite !Rsum_cons, Rsum_nil.
  unfold brier_score. rewrite !clamp_id by lra.
  replace (0 + 1 + exp (-1)) with (1 + exp (-1)) by lra.
  f_equal. lra.
Qed.

(** After sharpening and normalisation peer 0 holds the whole weight. *)
Example scenario_normalized_scores :
  normalize_l1
    (sharpen (raw_scores Scenario.validator Scenario.event 1
                Scenario.predictions))
  = [1; 0].
Proof.
  rewrite scenario_raw_scores.
  set (a := (99 / 100 + exp (-1) * (96 / 100)) / (1 + exp (-1))).
  pose proof (exp_pos (-1)) as Hexp.
  assert (0 < a) as Ha.
  { unfold a. apply Rdiv_lt_0_compat; nra. }
  rewrite sharpen_positive by (constructor; exact Ha).
  cbn [map]. unfold sharpen_entry.
  destruct (Req_dec_T a 0) as [Hz | _]; [lra |].
  destruct (Req_dec_T 0 0) as [_ | Hn]; [| lra].
  pose proof (exp_pos (30 * a)) as He.
  unfold normalize_l1, l1_norm. cbn [map].
  rewrite !Rsum_cons, Rsum_nil.
  rewrite Rabs_R0, Rabs_pos_eq by lra.
  pose proof normalize_eps_small as Heps.
  pose proof (exp_pos_gt_1 (30 * a) ltac:(lra)) as Hgt.
  rewrite Rmax_left by lra.
  f_equal; [| f_equal].
  - field. lra.
  - field. lra.
Qed.

End EndToEnd.

(* ===================================================================== *)
(** ** Dispatch *)
(* ===================================================================== *)

Import Dispatcher.

Section TaskMonad.

Lemma store_one_eq (block ism : Z) (uid : nat) (r : EventsPredictionSynapse)
    (rest : Task unit) (s : TaskState) :
  store_one block ism (uid, r) rest s
  = match parse_neuron_predictions (metagraph s) block ism uid r with
    | Some ps =>
        rest {| metagraph := metagraph s;
                calls := calls s ++ [UpsertPredictions ps] |}
    | None => None
    end.
Proof.
  unfold store_one, task_bind, read_metagraph, lift_option, call.
  destruct (parse_neuron_predictions _ _ _ _ _); reflexivity.
Qed.

Lemma parse_neuron_predictions_eq (m : Metagraph) (block ism : Z) (uid : nat)
    (r : EventsPredictionSynapse) (ps : list Prediction) :
  parse_neuron_predictions m block ism uid r = Some ps ->
  exists a : AxonInfo,
    axons m !! uid = Some (Some a)
    /\ ps = map (prediction_of (hotkey a) block ism uid)
                (map_to_list (events r)).
Proof.
  unfold parse_neuron_predictions. intros H.
  destruct (axons m !! uid) as [[a |] |] eqn:Hax; simpl in H; try discriminate.
  exists a. split; [reflexivity |].
  injection H as <-. apply map_ext. intros [e ep]. reflexivity.
Qed.

Lemma parse_neuron_predictions_total (m : Metagraph) (block ism : Z)
    (uid : nat) (r : EventsPredictionSynapse) (a : AxonInfo) :
  axons m !! uid = Some (Some a) ->
  is_Some (parse_neuron_predictions m block ism uid r).
Proof.
  intros Hax. unfold parse_neuron_predictions. rewrite Hax. simpl. eauto.
Qed.

Lemma upserted_app (cs1 cs2 : list Call) :
  upserted (cs1 ++ cs2) = upserted cs1 ++ upserted cs2.
Proof. unfold upserted. rewrite map_app, concat_app. reflexivity. Qed.

Lemma upserted_batches (batches : list (list Prediction)) :
  upserted (map UpsertPredictions batches) = concat batches.
Proof.
  unfold upserted. rewrite map_map. f_equal.
  induction batches; simpl; congruence.
Qed.

(** What a completed [store_predictions] has done: one batch per reply, in
    the order of the replies, each the parse of its reply. *)
Lemma store_list_spec (block ism : Z)
    (l : list (nat * EventsPredictionSynapse)) (s s' : TaskState) :
  foldr (store_one block ism) (task_ret tt) l s = Some (tt, s') ->
  metagraph s' = metagraph s
  /\ exists batches : list (list Prediction),
       calls s' = calls s ++ map UpsertPredictions batches
       /\ Forall2 (fun entry ps =>
                     parse_neuron_predictions (metagraph s) block ism
                       (fst entry) (snd entry) = Some ps) l batches.
Proof.
  revert s. induction l as [| [uid r] l IH]; intros s H.
  - simpl in H. injection H as <-.
    split; [reflexivity |]. exists []. simpl.
    rewrite app_nil_r. split; [reflexivity | constructor].
  - cbn [foldr] in H. rewrite store_one_eq in H.
    destruct (parse_neuron_predictions _ _ _ _ _) as [ps |] eqn:Hps;
      [| discriminate].
    apply IH in H. simpl in H. destruct H as [Hm [batches [Hc Hall]]].
    split; [exact Hm |]. exists (ps :: batches). split.
    + rewrite Hc, <- app_assoc. reflexivity.
    + constructor; assumption.
Qed.

(** [store_predictions] completes when every replying peer has an axon. *)
Lemma store_list_total (block ism : Z)
    (l : list (nat * EventsPredictionSynapse)) (s : TaskState) :
  Forall (fun entry => exists a : AxonInfo,
            axons (metagraph s) !! fst entry = Some (Some a)) l ->
  exists s' : TaskState,
    foldr (store_one block ism) (task_ret tt) l s = Some (tt, s').
Proof.
  revert s. induction l as [| [uid r] l IH]; intros s Hall.
  - exists s. reflexivity.
  - apply Forall_cons in Hall. destruct Hall as [[a Ha] Hall].
    cbn [foldr]. rewrite store_one_eq.
    destruct (parse_neuron_predictions_total (metagraph s) block ism uid r a Ha)
      as [ps ->].
    apply IH. exact Hall.
Qed.

End TaskMonad.

Section Records.

Variables (hk : string) (block ism : Z) (uid : nat).

Local Abbreviation record := (prediction_of hk block ism uid).

Lemma records_for_app (u : nat) (e : string) (ps qs : list Prediction) :
  records_for u e (ps ++ qs) = records_for u e ps ++ records_for u e qs.
Proof. apply filter_app. Qed.

Lemma records_for_other_peer (u : nat) (e : string)
    (kvs : list (string * EventPrediction)) :
  u <> uid -> records_for u e (map record kvs) = [].
Proof.
  intros Hne. unfold records_for.
  induction kvs as [| [e' ep'] kvs IH]; [reflexivity |].
  cbn [map]. rewrite filter_cons_False; [exact IH |].
  cbn. intros [Hu _]. congruence.
Qed.

Lemma records_for_absent (e : string) (kvs : list (string * EventPrediction)) :
  e ∉ kvs.*1 -> records_for uid e (map record kvs) = [].
Proof.
  unfold records_for.
  induction kvs as [| [e' ep'] kvs IH]; intros Hnot; [reflexivity |].
  cbn [map]. rewrite filter_cons_False.
  - apply IH. intros Hin. apply Hnot. cbn. apply elem_of_cons. right. exact Hin.
  - cbn. intros [_ He]. apply Hnot. cbn. apply elem_of_cons. left. congruence.
Qed.

Lemma records_for_present (e : string) (ep : EventPrediction)
    (kvs : list (string * EventPrediction)) :
  NoDup kvs.*1 -> (e, ep) ∈ kvs ->
  records_for uid e (map record kvs) = [record (e, ep)].
Proof.
  induction kvs as [| [e' ep'] kvs IH]; intros Hnd Hin.
  - apply elem_of_nil in Hin. contradiction.
  - cbn in Hnd. apply NoDup_cons in Hnd. destruct Hnd as [Hfresh Hnd].
    apply elem_of_cons in Hin. destruct Hin as [Heq | Hin].
    + injection Heq as <- <-.
      cbn [map]. unfold records_for. rewrite filter_cons_True by (cbn; auto).
      f_equal. apply (records_for_absent e kvs Hfresh).
    + assert (e <> e') as Hne.
      { intros <-. apply Hfresh. apply list_elem_of_fmap.
        exists (e, ep). split; [reflexivity | exact Hin]. }
      cbn [map]. unfold records_for.
      rewrite filter_cons_False by (cbn; intros [_ He]; congruence).
      apply (IH Hnd Hin).
Qed.

End Records.

Section StoredRecords.

Variables (m : Metagraph) (block ism : Z).

Local Abbreviation parsed :=
  (fun (entry : nat * EventsPredictionSynapse) (ps : list Prediction) =>
     parse_neuron_predictions m block ism (fst entry) (snd entry) = Some ps).

Lemma stored_length (l : list (nat * EventsPredictionSynapse))
    (batches : list (list Prediction)) (bound : nat) :
  Forall2 parsed l batches ->
  Forall (fun entry => size (events (snd entry)) <= bound)%nat l ->
  (length (concat batches) <= length l * bound)%nat.
Proof.
  induction 1 as [| [u r] ps l batches Hps _ IH]; intros Hall.
  - simpl. lia.
  - apply Forall_cons in Hall. destruct Hall as [Hr Hall].
    specialize (IH Hall).
    apply parse_neuron_predictions_eq in Hps. destruct Hps as [a [_ ->]].
    cbn [concat length]. rewrite length_app, length_map, length_map_to_list.
    cbn [snd] in *. lia.
Qed.

Lemma stored_unknown_peer (u : nat) (e : string)
    (l : list (nat * EventsPredictionSynapse))
    (batches : list (list Prediction)) :
  Forall2 parsed l batches ->
  u ∉ l.*1 ->
  records_for u e (concat batches) = [].
Proof.
  induction 1 as [| [u' r] ps l batches Hps _ IH]; intros Hnot.
  - reflexivity.
  - apply parse_neuron_predictions_eq in Hps. destruct Hps as [a [_ ->]].
    cbn [concat]. rewrite records_for_app.
    rewrite records_for_other_peer.
    + apply IH. intros Hin. apply Hnot. cbn. apply elem_of_cons. right. exact Hin.
    + intros ->. apply Hnot. cbn. apply elem_of_cons. left. reflexivity.
Qed.

Lemma stored_records (u : nat) (r : EventsPredictionSynapse) (e : string)
    (l : list (nat * EventsPredictionSynapse))
    (batches : list (list Prediction)) :
  Forall2 parsed l batches ->
  NoDup l.*1 ->
  (u, r) ∈ l ->
  match events r !! e with
  | Some ep =>
      exists a : AxonInfo,
        axons m !! u = Some (Some a)
        /\ records_for u e (concat batches)
           = [prediction_of (hotkey a) block ism u (e, ep)]
  | None => records_for u e (concat batches) = []
  end.
Proof.
  induction 1 as [| [u' r'] ps l batches Hps Hrest IH]; intros Hnd Hin.
  - apply elem_of_nil in Hin. contradiction.
  - cbn in Hnd. apply NoDup_cons in Hnd. destruct Hnd as [Hfresh Hnd].
    apply parse_neuron_predictions_eq in Hps.
    destruct Hps as [a [Hax ->]]. cbn [fst snd] in *.
    cbn [concat]. rewrite records_for_app.
    apply elem_of_cons in Hin. destruct Hin as [Heq | Hin].
    + injection Heq as <- <-.
      rewrite (stored_unknown_peer u e l batches Hrest Hfresh), app_nil_r.
      destruct (events r !! e) as [ep |] eqn:He.
      * exists a. split; [exact Hax |].
        apply records_for_present.
        -- apply NoDup_fst_map_to_list.
        -- apply elem_of_map_to_list, He.
      * apply records_for_absent. intros Hin.
        apply list_elem_of_fmap in Hin. destruct Hin as [[e' ep'] [-> Hin]].
        apply elem_of_map_to_list in Hin. cbn in He. congruence.
    + assert (u <> u') as Hne.
      { intros <-. apply Hfresh. apply list_elem_of_fmap.
        exists (u, r). split; [reflexivity | exact Hin]. }
      rewrite records_for_other_peer by exact Hne. cbn [app].
      apply (IH Hnd Hin).
Qed.

End StoredRecords.

Lemma make_predictions_synapse_size (rows : list EventRow) :
  (size (events (make_predictions_synapse rows)) <= length rows)%nat.
Proof.
  unfold make_predictions_synapse. cbn [events].
  match goal with
  | |- (size (foldl ?f ∅ rows) <= _)%nat =>
      assert (forall acc : gmap string EventPrediction,
                 (size (foldl f acc rows) <= size acc + length rows)%nat) as H
  end.
  { induction rows as [| row rows IH]; intros acc; cbn [foldl length].
    - lia.
    - etransitivity; [apply IH |].
      rewrite map_size_insert. destruct (acc !! _); unfold Datatypes.id; lia. }
  specialize (H ∅). rewrite map_size_empty in H. exact H.
Qed.

Lemma reply_within_request_size (rows : list EventRow)
    (r : EventsPredictionSynapse) :
  dom (events r) ⊆ dom (events (make_predictions_synapse rows)) ->
  (size (events r) <= length rows)%nat.
Proof.
  intros Hsub. apply subseteq_size in Hsub. rewrite !size_dom in Hsub.
  pose proof (make_predictions_synapse_size rows). lia.
Qed.

Section DispatchClaims.

(** C7, as the specification states it, fails: in a round with one open
    event and one responding peer, a reply that carries two entries, none of
    them for the event of the request, yields two records (more than 1 x 1)
    and no record at all for the event the peer did not address. *)
Lemma stray_reply_breaks_bound :
  match run Scenario.stray_round Scenario.fresh_task with
  | Some (_, s') =>
      length (events_to_predict Scenario.stray_round) = 1%nat
      /\ length (replies Scenario.stray_round [Scenario.serving_axon]
                   (make_predictions_synapse [Scenario.open_row])) = 1%nat
      /\ is_Some (events (make_predictions_synapse [Scenario.open_row])
                  !! "ifgames-e1"%string)
      /\ length (upserted (calls s')) = 2%nat
      /\ ¬ (length (upserted (calls s')) <= 1 * 1)%nat
      /\ records_for 0 "ifgames-e1" (upserted (calls s')) = []
  | None => False
  end.
Proof.
  vm_compute.
  split; [reflexivity |]. split; [reflexivity |]. split; [eauto |].
  split; [reflexivity |]. split; [| reflexivity].
  intros H. apply (proj1 (Nat.le_ngt _ _) H). repeat constructor.
Qed.

(** C7, amended: [store_predictions] hands the store exactly one record
    per responding peer and per entry of that peer's reply.  When every
    reply carries entries only for events of the request built from the [M]
    open events, the [N] replies yield at most [N x M] records.  An event
    whose entry in the reply has no probability yields exactly one record,
    with an absent answer; an event without an entry in the reply yields no
    record. *)
Theorem store_predictions_records (block ism : Z) (rows : list EventRow)
    (np : gmap nat EventsPredictionSynapse) (s : TaskState) :
  (forall (uid : nat) (r : EventsPredictionSynapse),
      np !! uid = Some r ->
      exists a : AxonInfo, axons (metagraph s) !! uid = Some (Some a)) ->
  exists (s' : TaskState) (recs : list Prediction),
    store_predictions block ism np s = Some (tt, s')
    /\ upserted (calls s') = upserted (calls s) ++ recs
    /\ ((forall (uid : nat) (r : EventsPredictionSynapse),
            np !! uid = Some r ->
            dom (events r) ⊆ dom (events (make_predictions_synapse rows))) ->
        (length recs <= size np * length rows)%nat)
    /\ (forall (uid : nat) (r : EventsPredictionSynapse) (e : string),
          np !! uid = Some r ->
          match events r !! e with
          | Some ep =>
              exists p : Prediction,
                records_for uid e recs = [p]
                /\ prediction_answer p = probability ep
          | None => records_for uid e recs = []
          end).
Proof.
  intros Haxons. unfold store_predictions.
  destruct (store_list_total block ism (map_to_list np) s) as [s' Hrun].
  { apply Forall_forall. intros [uid r] Hin.
    apply elem_of_map_to_list in Hin. exact (Haxons uid r Hin). }
  destruct (store_list_spec block ism _ s s' Hrun) as [_ [batches [Hc Hall]]].
  exists s', (concat batches).
  split; [exact Hrun |]. split.
  { rewrite Hc, upserted_app, upserted_batches. reflexivity. }
  split.
  - intros Hsub. rewrite <- (length_map_to_list np).
    apply (stored_length (metagraph s) block ism _ _ _ Hall).
    apply Forall_forall. intros [uid r] Hin.
    apply elem_of_map_to_list in Hin. cbn [snd].
    apply reply_within_request_size, (Hsub uid r Hin).
  - intros uid r e Hr.
    pose proof (stored_records (metagraph s) block ism uid r e _ _ Hall
                  (NoDup_fst_map_to_list np)
                  (proj2 (elem_of_map_to_list np uid r) Hr)) as Hrec.
    destruct (events r !! e) as [ep |]; [| exact Hrec].
    destruct Hrec as [a [_ Hrec]].
    eexists. split; [exact Hrec | reflexivity].
Qed.

(** The round of the scenario satisfies the hypothesis of
    [store_predictions_records]. *)
Lemma store_predictions_records_scenario :
  exists (s' : TaskState) (recs : list Prediction),
    store_predictions 7 480 {[ 0%nat := Scenario.stray_reply ]}
      Scenario.fresh_task = Some (tt, s')
    /\ upserted (calls s') = upserted (calls Scenario.fresh_task) ++ recs
    /\ ((forall (uid : nat) (r : EventsPredictionSynapse),
            ({[ 0%nat := Scenario.stray_reply ]}
               : gmap nat EventsPredictionSynapse) !! uid = Some r ->
            dom (events r)
            ⊆ dom (events (make_predictions_synapse [Scenario.open_row]))) ->
        (length recs
         <= size ({[ 0%nat := Scenario.stray_reply ]}
                    : gmap nat EventsPredictionSynapse)
            * length [Scenario.open_row])%nat)
    /\ (forall (uid : nat) (r : EventsPredictionSynapse) (e : string),
          ({[ 0%nat := Scenario.stray_reply ]}
             : gmap nat EventsPredictionSynapse) !! uid = Some r ->
          match events r !! e with
          | Some ep =>
              exists p : Prediction,
                records_for uid e recs = [p]
                /\ prediction_answer p = probability ep
          | None => records_for uid e recs = []
          end).
Proof.
  apply (store_predictions_records 7 480 [Scenario.open_row]
           {[ 0%nat := Scenario.stray_reply ]} Scenario.fresh_task).
  intros uid r Hr.
  apply lookup_singleton_Some in Hr. destruct Hr as [<- _].
  exists Scenario.serving_axon. reflexivity.
Defined.

Lemma get_axons_none_serving (m : Metagraph) :
  (forall uid : nat, uid ∈ uids m ->
     exists entry : option AxonInfo,
       axons m !! uid = Some entry
       /\ (forall a : AxonInfo, entry = Some a -> is_serving a = false)) ->
  get_axons m = Some ∅.
Proof.
  unfold get_axons. generalize (uids m) as l.
  induction l as [| uid l IH]; intros Hall; [reflexivity |].
  cbn [foldl].
  destruct (Hall uid (list_elem_of_here uid l)) as [entry [Hax Hoff]].
  cbn. rewrite Hax. cbn.
  assert (match entry with
          | Some a => if is_serving a then <[uid:=a]> (∅ : gmap nat AxonInfo) else ∅
          | None => ∅
          end = ∅) as ->.
  { destruct entry as [a |]; [| reflexivity].
    rewrite (Hoff a eq_refl). reflexivity. }
  apply IH. intros uid' Hin. apply Hall. apply list_elem_of_further, Hin.
Qed.

(** C10: when the list of events to predict is empty, [run] returns after
    asking for the events only: it does not sync the metagraph, queries no
    peer and writes no prediction, and its metagraph is unchanged; when
    there are events but no axon of the synced metagraph is serving, [run]
    returns after the sync: it queries no peer and writes no prediction. *)
Theorem run_noop_edge_cases (w : Collaborators) (s : TaskState) :
  (events_to_predict w = [] ->
   run w s
   = Some (tt, {| metagraph := metagraph s;
                  calls := calls s ++ [GetEventsToPredict] |}))
  /\ (events_to_predict w <> [] ->
      (forall uid : nat, uid ∈ uids (synced w (metagraph s)) ->
         exists entry : option AxonInfo,
           axons (synced w (metagraph s)) !! uid = Some entry
           /\ (forall a : AxonInfo, entry = Some a -> is_serving a = false)) ->
      run w s
      = Some (tt, {| metagraph := synced w (metagraph s);
                     calls := calls s ++ [GetEventsToPredict; MetagraphSync] |})).
Proof.
  split.
  - intros Hnil. unfold run, task_bind, call. rewrite Hnil. reflexivity.
  - intros Hne Hoff.
    pose proof (get_axons_none_serving _ Hoff) as Hax.
    unfold run, task_bind, call, read_metagraph, write_metagraph.
    destruct (events_to_predict w) as [| row rows]; [congruence |].
    cbn. rewrite Hax. cbn. rewrite <- app_assoc. reflexivity.
Qed.

(** A store without open events. *)
Lemma run_noop_edge_cases_example :
  run {| events_to_predict := [];
         synced := fun m => m;
         replies := fun _ _ => [];
         utc_now := 0 |} Scenario.fresh_task
  = Some (tt, {| metagraph := Scenario.one_peer;
                 calls := [GetEventsToPredict] |}).
Proof.
  apply (proj1 (run_noop_edge_cases
                  {| events_to_predict := [];
                     synced := fun m => m;
                     replies := fun _ _ => [];
                     utc_now := 0 |} Scenario.fresh_task)).
  reflexivity.
Defined.

End DispatchClaims.

(* ===================================================================== *)
(** ** The rate limit *)
(* ===================================================================== *)

Import Forward.

Section RateLimit.

Local Open Scope R_scope.

Lemma forward_throttled (r : Round) (st : ForwardState) :
  pytest r = false ->
  clock st + before_query r + after_query r - last_query_time st
  < MIN_TIME_BETWEEN_QUERY_MINERS ->
  forward r st
  = (let test_time := clock st + before_query r + after_query r in
     let wait_time :=
       MIN_TIME_BETWEEN_QUERY_MINERS - (test_time - last_query_time st) in
     ({| last_query_time := test_time + wait_time;
         blocktime := (blocktime st + 1)%Z;
         clock := test_time + wait_time |},
      [QueryMiners (clock st + before_query r); Sleep test_time wait_time])).
Proof.
  intros Hpy Hlt. unfold forward. rewrite Hpy.
  destruct (Rlt_dec _ _); [reflexivity | contradiction].
Qed.

Lemma forward_unthrottled (r : Round) (st : ForwardState) :
  ¬ (clock st + before_query r + after_query r - last_query_time st
     < MIN_TIME_BETWEEN_QUERY_MINERS) ->
  forward r st
  = (let test_time := clock st + before_query r + after_query r in
     ({| last_query_time := test_time;
         blocktime := (blocktime st + 1)%Z;
         clock := test_time |},
      [QueryMiners (clock st + before_query r)])).
Proof.
  intros Hge. unfold forward.
  destruct (Rlt_dec _ _); [contradiction | reflexivity].
Qed.

(** C8, as the specification states it, fails: a round started right after
    the previous one ended queries the peers at once (at second 1000, the
    instant the previous round ended) and sleeps 300 seconds afterwards,
    before returning; and the queries of two successive rounds, the first
    of which spends 100 seconds before its query, are 200 seconds apart. *)
Lemma early_round_queries_at_once :
  let st := Scenario.just_finished in
  clock st - last_query_time st < MIN_TIME_BETWEEN_QUERY_MINERS
  /\ snd (forward Scenario.prompt_round st)
     = [QueryMiners (1000 + 0); Sleep (1000 + 0 + 0) (300 - (1000 + 0 + 0 - 1000))]
  /\ ¬ Forall (fun t => last_query_time st + MIN_TIME_BETWEEN_QUERY_MINERS <= t)
         (query_times (snd (forward Scenario.prompt_round st)))
  /\ query_times
       (snd (forward_loop [Scenario.slow_start_round; Scenario.prompt_round] st))
     = [1000 + 100; 1000 + 100 + 0 + (300 - (1000 + 100 + 0 - 1000)) + 0]
  /\ 1000 + 100 + 0 + (300 - (1000 + 100 + 0 - 1000)) + 0 - (1000 + 100) = 200.
Proof.
  intros st.
  assert (forward Scenario.prompt_round st
          = ({| last_query_time := 1000 + 0 + 0 + (300 - (1000 + 0 + 0 - 1000));
                blocktime := 1;
                clock := 1000 + 0 + 0 + (300 - (1000 + 0 + 0 - 1000)) |},
             [QueryMiners (1000 + 0);
              Sleep (1000 + 0 + 0) (300 - (1000 + 0 + 0 - 1000))])) as Hprompt.
  { apply forward_throttled; [reflexivity |].
    unfold MIN_TIME_BETWEEN_QUERY_MINERS. simpl. lra. }
  assert (forward Scenario.slow_start_round st
          = ({| last_query_time :=
                  1000 + 100 + 0 + (300 - (1000 + 100 + 0 - 1000));
                blocktime := 1;
                clock := 1000 + 100 + 0 + (300 - (1000 + 100 + 0 - 1000)) |},
             [QueryMiners (1000 + 100);
              Sleep (1000 + 100 + 0) (300 - (1000 + 100 + 0 - 1000))])) as Hslow.
  { apply forward_throttled; [reflexivity |].
    unfold MIN_TIME_BETWEEN_QUERY_MINERS. simpl. lra. }
  split; [unfold MIN_TIME_BETWEEN_QUERY_MINERS; simpl; lra |].
  split; [rewrite Hprompt; reflexivity |].
  split.
  - rewrite Hprompt. cbn. intros Hall.
    apply Forall_cons in Hall. destruct Hall as [Hle _].
    unfold MIN_TIME_BETWEEN_QUERY_MINERS in Hle. lra.
  - split; [| lra].
    cbn [forward_loop]. rewrite Hslow.
    rewrite forward_throttled.
    + reflexivity.
    + reflexivity.
    + unfold MIN_TIME_BETWEEN_QUERY_MINERS. simpl. lra.
Qed.

(** C8, amended: unless [PYTEST_CURRENT_TEST] is set, the instants at which
    successive rounds end (the values of [last_query_time]) are at least 300
    seconds apart; a round queries the peers first, without waiting, and
    when it reaches its end less than 300 seconds after the previous round
    ended it sleeps the remainder after its network calls and before
    returning control to its caller. *)
Theorem forward_rate_limit (r : Round) (st : ForwardState) :
  pytest r = false ->
  let query_time := clock st + before_query r in
  let test_time := query_time + after_query r in
  let st' := fst (forward r st) in
  last_query_time st + 300 <= last_query_time st'
  /\ clock st' = last_query_time st'
  /\ (test_time - last_query_time st < 300 ->
      snd (forward r st)
      = [QueryMiners query_time;
         Sleep test_time (300 - (test_time - last_query_time st))]
      /\ last_query_time st' = last_query_time st + 300)
  /\ (¬ test_time - last_query_time st < 300 ->
      snd (forward r st) = [QueryMiners query_time]
      /\ last_query_time st' = test_time).
Proof.
  intros Hpy query_time test_time st'.
  destruct (Rlt_dec (test_time - last_query_time st) 300) as [Hlt | Hge].
  - pose proof (forward_throttled r st Hpy Hlt) as Hf.
    unfold st'. rewrite Hf. cbn.
    fold query_time. fold test_time.
    unfold MIN_TIME_BETWEEN_QUERY_MINERS.
    split; [lra |]. split; [reflexivity |]. split.
    + intros _. split; [reflexivity | lra].
    + intros Hn. contradiction.
  - pose proof (forward_unthrottled r st Hge) as Hf.
    unfold st'. rewrite Hf. cbn.
    fold query_time. fold test_time.
    split; [lra |]. split; [reflexivity |]. split.
    + intros Hn. contradiction.
    + intros _. split; reflexivity.
Qed.

(** The prompt round of the scenario is not run under the test harness. *)
Lemma forward_rate_limit_scenario :
  last_query_time Scenario.just_finished + 300
  <= last_query_time (fst (forward Scenario.prompt_round Scenario.just_finished)).
Proof.
  apply (forward_rate_limit Scenario.prompt_round Scenario.just_finished).
  reflexivity.
Defined.

End RateLimit.

(* ===================================================================== *)
(** * Further properties of the settlement scoring *)
(* ===================================================================== *)

Section ScoringLoop.

Local Open Scope R_scope.

Variables (y : R) (w : Window) (reg : datetime)
          (pi : option (gmap Z IntervalData)).

(** The loop of the general branch in closed form. *)
Lemma general_loop_eq (l : list Z) (mk : list R) (ws : R) :
  fold_left (interval_step y w reg pi) l (mk, ws)
  = (mk ++ map (fun i => interval_term (interval_weight w i)
                           (interval_answer reg pi i) y) l,
     ws + Rsum (map (interval_weight w) l)).
Proof.
  revert mk ws. induction l as [| i l IH]; intros mk ws; cbn [fold_left map].
  - rewrite app_nil_r, Rsum_nil. f_equal. lra.
  - rewrite interval_step_eq, IH, <- app_assoc, Rsum_cons.
    cbn [app]. f_equal. lra.
Qed.

Lemma weights_sum_pos (l : list Z) :
  l <> [] -> 0 < Rsum (map (interval_weight w) l).
Proof.
  destruct l as [| i l]; [congruence |]. intros _.
  cbn [map]. rewrite Rsum_cons.
  pose proof (interval_weight_pos w i).
  assert (0 <= Rsum (map (interval_weight w) l)).
  { apply Rsum_nonneg, Forall_map, Forall_forall. intros j _.
    left. apply interval_weight_pos. }
  lra.
Qed.

(** The score of a peer that is not dismissed before the loop. *)
Lemma general_score_loop (registered : datetime) :
  bool_decide (reg < registered)%Z && py_not pi = false ->
  general_score y w registered reg pi
  = if Rlt_dec 0 (0 + Rsum (map (interval_weight w) (window_intervals w)))
    then Rsum (map (fun i => interval_term (interval_weight w i)
                               (interval_answer reg pi i) y)
                   (window_intervals w))
         / (0 + Rsum (map (interval_weight w) (window_intervals w)))
    else 0.
Proof.
  intros Hgo. unfold general_score. rewrite Hgo, general_loop_eq.
  reflexivity.
Qed.

End ScoringLoop.

Section WeightDecay.

Local Open Scope R_scope.

Lemma ratio_lt (total a b : Z) :
  (0 <= a < b)%Z -> (b < total)%Z ->
  IZR total / IZR (total - a) < IZR total / IZR (total - b).
Proof.
  intros Hab Hb.
  assert (0 < IZR total) as Ht by (apply IZR_lt; lia).
  assert (0 < IZR (total - a)) as Ha by (apply IZR_lt; lia).
  assert (0 < IZR (total - b)) as Hb' by (apply IZR_lt; lia).
  assert (IZR (total - b) < IZR (total - a)) as Hlt by (apply IZR_lt; lia).
  unfold Rdiv. apply Rmult_lt_compat_l; [exact Ht |].
  apply Rinv_lt_contravar; [| exact Hlt].
  apply Rmult_lt_0_compat; assumption.
Qed.

Lemma interval_weight_at (w : Window) (k : Z) :
  interval_weight w
    (start_interval_start_minutes w + CLUSTERED_SUBMISSIONS_INTERVAL_MINUTES * k)
  = if bool_decide (k + 1 <= first_n_intervals)%Z then 1
    else exp (- (IZR (total_intervals w) / IZR (total_intervals w - k)) + 1).
Proof. unfold interval_weight. rewrite current_interval_no_eq. reflexivity. Qed.

Lemma interval_weight_lt (w : Window) (a b : Z) :
  (0 <= a < b)%Z -> (b < total_intervals w)%Z ->
  interval_weight w
    (start_interval_start_minutes w + CLUSTERED_SUBMISSIONS_INTERVAL_MINUTES * b)
  < interval_weight w
      (start_interval_start_minutes w + CLUSTERED_SUBMISSIONS_INTERVAL_MINUTES * a).
Proof.
  intros Hab Hb. rewrite !interval_weight_at. unfold first_n_intervals.
  rewrite (bool_decide_eq_false_2 (b + 1 <= 1)%Z) by lia.
  case_bool_decide as Ha.
  - assert (a = 0%Z) as -> by lia.
    pose proof (ratio_lt (total_intervals w) 0 b ltac:(lia) Hb) as Hr.
    rewrite Z.sub_0_r in Hr.
    assert (IZR (total_intervals w) / IZR (total_intervals w) = 1) as Hone.
    { unfold Rdiv. apply Rinv_r.
      assert (0 < IZR (total_intervals w)) by (apply IZR_lt; lia). lra. }
    apply Rlt_le_trans with (exp 0);
      [apply exp_increasing; lra | rewrite exp_0; lra].
  - apply exp_increasing.
    pose proof (ratio_lt (total_intervals w) a b ltac:(lia) Hb). lra.
Qed.

End WeightDecay.

Section WeightDecayClaim.

Local Open Scope R_scope.

(** Recency weights: in the window of a settled event the first interval
    has weight 1 and the weight strictly decreases from each interval of
    the window to every later one. *)
Theorem interval_weight_decreasing (registered cutoff now : datetime)
    (i j : Z) :
  let w := scoring_window registered cutoff now in
  In i (window_intervals w) -> In j (window_intervals w) -> (i < j)%Z ->
  interval_weight w (start_interval_start_minutes w) = 1
  /\ interval_weight w j < interval_weight w i <= 1.
Proof.
  intros w Hi Hj Hlt.
  pose proof (window_span_exact registered cutoff now) as Hspan.
  fold w in Hspan.
  destruct (window_intervals_In w _ i Hspan Hi) as [a [Ha Hia]].
  destruct (window_intervals_In w _ j Hspan Hj) as [b [Hb Hjb]].
  split.
  - unfold interval_weight. rewrite Z.sub_diag.
    rewrite bool_decide_eq_true_2; [reflexivity |]. vm_compute. discriminate.
  - split.
    + rewrite Hia, Hjb. apply interval_weight_lt; [| lia].
      change CLUSTERED_SUBMISSIONS_INTERVAL_MINUTES with 240%Z in *. lia.
    + apply (interval_weight_le_1 w i Hspan Hi).
Qed.

(** The window of the scenario has two intervals. *)
Lemma interval_weight_decreasing_scenario :
  interval_weight
    (scoring_window (epoch_plus_minutes 0) (epoch_plus_minutes 480)
       (epoch_plus_minutes 10000)) 240
  < interval_weight
      (scoring_window (epoch_plus_minutes 0) (epoch_plus_minutes 480)
         (epoch_plus_minutes 10000)) 0
  <= 1.
Proof.
  apply (interval_weight_decreasing (epoch_plus_minutes 0)
           (epoch_plus_minutes 480) (epoch_plus_minutes 10000) 0 240).
  - vm_compute. left. reflexivity.
  - vm_compute. right. left. reflexivity.
  - reflexivity.
Defined.

End WeightDecayClaim.

Lemma interval_start_idempotent_bounds_aux (m : Z) :
  interval_start m <= m < interval_start m + CLUSTERED_SUBMISSIONS_INTERVAL_MINUTES.
Proof.
  unfold interval_start.
  pose proof (Z.mod_pos_bound m CLUSTERED_SUBMISSIONS_INTERVAL_MINUTES width_pos).
  lia.
Qed.

Section ScoreCases.

Local Open Scope R_scope.

Lemma Rsum_map_ext {A : Type} (f g : A -> R) (l : list A) :
  (forall x : A, In x l -> f x = g x) -> Rsum (map f l) = Rsum (map g l).
Proof.
  intros H. f_equal. apply map_ext_in. exact H.
Qed.

Lemma Rsum_map_zero {A : Type} (l : list A) : Rsum (map (fun _ => 0) l) = 0.
Proof.
  induction l as [| x l IH]; cbn [map].
  - apply Rsum_nil.
  - rewrite Rsum_cons, IH. lra.
Qed.

Lemma brier_score_exact (y : R) : 0 <= y <= 1 -> brier_score y y = 1.
Proof. intros Hy. unfold brier_score. rewrite clamp_id by exact Hy. lra. Qed.

Lemma brier_score_half_ge (y : R) :
  0 <= y <= 1 -> 3 / 4 <= brier_score (1 / 2) y.
Proof. intros Hy. rewrite brier_score_half. simpl. nra. Qed.

Lemma py_not_lookup {A : Type} (pi : option (gmap Z A)) (i : Z) :
  py_not pi = true -> default ∅ pi !! i = None.
Proof.
  destruct pi as [m |]; cbn.
  - intros H. apply bool_decide_eq_true_1 in H. subst m. apply lookup_empty.
  - intros _. apply lookup_empty.
Qed.

Lemma epoch_plus_minutes_mono (a b : Z) :
  (a <= b)%Z -> (epoch_plus_minutes a <= epoch_plus_minutes b)%Z.
Proof. unfold epoch_plus_minutes, MICROSECONDS_PER_SECOND. lia. Qed.

Lemma window_interval_after_start (w : Window) (i : Z) :
  In i (window_intervals w) -> (start_interval_start_minutes w <= i)%Z.
Proof.
  intros Hin. apply py_range_In in Hin. destruct Hin as [k [-> _]].
  change CLUSTERED_SUBMISSIONS_INTERVAL_MINUTES with 240%Z. lia.
Qed.

(** A datetime lies before the end of the minute it is counted in, also
    before the epoch, where [int] rounds up. *)
Lemma datetime_before_next_minute (t : datetime) :
  (t < epoch_plus_minutes (minutes_since_epoch t + 1))%Z.
Proof.
  unfold minutes_since_epoch, epoch_plus_minutes, MICROSECONDS_PER_SECOND.
  pose proof (Z.quot_rem' t 1000000) as Hqr.
  assert (Z.rem t 1000000 < 1000000)%Z as Hrem.
  { destruct (Z.le_gt_cases 0 t) as [Hpos | Hneg].
    - apply Z.rem_bound_pos; lia.
    - pose proof (Z.rem_nonpos t 1000000 ltac:(lia) ltac:(lia)). lia. }
  pose proof (Z.div_mod (t ÷ 1000000) 60 ltac:(lia)) as Hdm.
  pose proof (Z.mod_pos_bound (t ÷ 1000000) 60 ltac:(lia)) as Hm.
  lia.
Qed.

Lemma registered_before_window_interval_end (registered cutoff now : datetime)
    (i : Z) :
  In i (window_intervals (scoring_window registered cutoff now)) ->
  (registered
   < epoch_plus_minutes (i + CLUSTERED_SUBMISSIONS_INTERVAL_MINUTES))%Z.
Proof.
  intros Hin. apply window_interval_after_start in Hin.
  rewrite window_start_eq in Hin.
  pose proof (datetime_before_next_minute registered) as Hlt.
  pose proof (interval_start_idempotent_bounds_aux (minutes_since_epoch registered))
    as Hb.
  eapply Z.lt_le_trans; [exact Hlt |].
  apply epoch_plus_minutes_mono. lia.
Qed.

End ScoreCases.

Section ScoreCaseClaims.

Local Open Scope R_scope.

(** A peer whose answer in every interval of a non-empty window equals the
    ground truth, and that is not dismissed before the loop (it registered
    no earlier than the event or has a recorded interval), gets the raw
    score 1. *)
Theorem perfect_answers_score_one (y : R) (w : Window)
    (registered reg : datetime) (pi : option (gmap Z IntervalData)) :
  0 <= y <= 1 ->
  window_intervals w <> [] ->
  (registered <= reg)%Z \/ py_not pi = false ->
  (forall i : Z, In i (window_intervals w) ->
     interval_answer reg pi i = Some y) ->
  general_score y w registered reg pi = 1.
Proof.
  intros Hy Hne Hgo Hall.
  rewrite general_score_loop.
  - pose proof (weights_sum_pos w (window_intervals w) Hne) as Hpos.
    rewrite (Rsum_map_ext
               (fun i => interval_term (interval_weight w i)
                           (interval_answer reg pi i) y)
               (interval_weight w)).
    + destruct (Rlt_dec _ _) as [_ | Hn]; [| lra].
      rewrite Rplus_0_l. unfold Rdiv. apply Rinv_r. lra.
    + intros i Hin. rewrite (Hall i Hin). cbn [interval_term].
      rewrite brier_score_exact by exact Hy. lra.
  - destruct Hgo as [Hreg | Hpi].
    + rewrite bool_decide_eq_false_2 by lia. reflexivity.
    + rewrite Hpi. apply andb_false_r.
Qed.

(** The perfect peer of the scenario window. *)
Lemma perfect_answers_score_one_case :
  general_score 1 Cases.window (epoch_plus_minutes 0)
    (epoch_plus_minutes (-1000)) (Some Cases.perfect_peer) = 1.
Proof.
  apply (perfect_answers_score_one 1 Cases.window (epoch_plus_minutes 0)
           (epoch_plus_minutes (-1000)) (Some Cases.perfect_peer)).
  - lra.
  - discriminate.
  - right. reflexivity.
  - intros i [<- | [<- | []]]; reflexivity.
Defined.

(** A peer without any recorded answer that registered no later than the
    end of the first interval of the window gets the raw score 0 in the
    general branch, whenever it registered relative to the event. *)
Theorem silent_peer_scores_zero (y : R) (w : Window)
    (registered reg : datetime) (pi : option (gmap Z IntervalData)) :
  py_not pi = true ->
  (reg <= epoch_plus_minutes (start_interval_start_minutes w + 240))%Z ->
  general_score y w registered reg pi = 0.
Proof.
  intros Hsilent Hreg.
  destruct (bool_decide (reg < registered)%Z && py_not pi) eqn:Hexit.
  { unfold general_score. rewrite Hexit. reflexivity. }
  rewrite (general_score_loop y w reg pi registered Hexit).
  rewrite (Rsum_map_ext
             (fun i => interval_term (interval_weight w i)
                         (interval_answer reg pi i) y)
             (fun _ => 0)).
  - rewrite Rsum_map_zero.
    destruct (Rlt_dec _ _); [| reflexivity].
    unfold Rdiv. apply Rmult_0_l.
  - intros i Hin.
    rewrite interval_answer_recorded.
    + rewrite (py_not_lookup pi i Hsilent). reflexivity.
    + apply window_interval_after_start in Hin.
      pose proof (epoch_plus_minutes_mono
                    (start_interval_start_minutes w + 240)
                    (i + CLUSTERED_SUBMISSIONS_INTERVAL_MINUTES)) as Hm.
      change CLUSTERED_SUBMISSIONS_INTERVAL_MINUTES with 240%Z in *. lia.
Qed.

(** The silent peer of the scenario. *)
Lemma silent_peer_scores_zero_case :
  general_score 1 Cases.window (epoch_plus_minutes 0)
    (epoch_plus_minutes 100) None = 0.
Proof.
  apply (silent_peer_scores_zero 1 Cases.window (epoch_plus_minutes 0)
           (epoch_plus_minutes 100) None).
  - reflexivity.
  - vm_compute. discriminate.
Defined.

(** A peer without any recorded answer that registered after the end of
    some interval of the event's window gets a strictly positive raw score:
    that interval is scored on the answer 0.5. *)
Theorem silent_late_peer_scores_positive (y : R)
    (registered cutoff now reg : datetime)
    (pi : option (gmap Z IntervalData)) (i : Z) :
  0 <= y <= 1 ->
  let w := scoring_window registered cutoff now in
  py_not pi = true ->
  In i (window_intervals w) ->
  (epoch_plus_minutes (i + 240) < reg)%Z ->
  0 < general_score y w registered reg pi.
Proof.
  intros Hy w Hsilent Hin Hlate.
  pose proof (registered_before_window_interval_end registered cutoff now i Hin)
    as Hreg.
  change CLUSTERED_SUBMISSIONS_INTERVAL_MINUTES with 240%Z in Hreg.
  rewrite general_score_loop
    by (rewrite bool_decide_eq_false_2 by lia; reflexivity).
  fold w.
  assert (window_intervals w <> []) as Hne by (intros E; rewrite E in Hin; destruct Hin).
  pose proof (weights_sum_pos w (window_intervals w) Hne) as Hpos.
  destruct (Rlt_dec _ _) as [_ | Hn]; [| lra].
  apply Rdiv_lt_0_compat; [| lra].
  set (term := fun j => interval_term (interval_weight w j)
                          (interval_answer reg pi j) y).
  assert (0 < term i) as Hterm.
  { unfold term. rewrite (interval_answer_too_new reg pi i Hlate).
    cbn [interval_term].
    pose proof (interval_weight_pos w i).
    pose proof (brier_score_half_ge y Hy). nra. }
  assert (term i <= Rsum (map term (window_intervals w))).
  { apply Rsum_ge_member.
    - apply Forall_map, Forall_forall. intros j _. unfold term.
      apply interval_term_bounds; [exact Hy |].
      left. apply interval_weight_pos.
    - apply in_map. exact Hin. }
  lra.
Qed.

(** A silent peer registered at minute 300, after the end of interval 0. *)
Lemma silent_late_peer_scores_positive_case :
  0 < general_score 1
        (scoring_window (epoch_plus_minutes 0) (epoch_plus_minutes 480)
           (epoch_plus_minutes 10000))
        (epoch_plus_minutes 0) (epoch_plus_minutes 300) None.
Proof.
  apply (silent_late_peer_scores_positive 1 (epoch_plus_minutes 0)
           (epoch_plus_minutes 480) (epoch_plus_minutes 10000)
           (epoch_plus_minutes 300) None 0).
  - lra.
  - reflexivity.
  - vm_compute. left. reflexivity.
  - reflexivity.
Defined.

End ScoreCaseClaims.

Section HookOutputs.

Local Open Scope R_scope.

Lemma window_intervals_empty (w : Window) :
  (effective_finish_start_minutes w <= start_interval_start_minutes w)%Z ->
  window_intervals w = [].
Proof.
  intros Hle. unfold window_intervals, py_range.
  change CLUSTERED_SUBMISSIONS_INTERVAL_MINUTES with 240%Z.
  assert ((effective_finish_start_minutes w - start_interval_start_minutes w
           + 240 - 1) / 240 < 1)%Z as Hdiv
    by (apply Z.div_lt_upper_bound; lia).
  replace (Z.to_nat _) with 0%nat by lia. reflexivity.
Qed.

Lemma general_score_empty_window (y : R) (w : Window)
    (registered reg : datetime) (pi : option (gmap Z IntervalData)) :
  window_intervals w = [] -> general_score y w registered reg pi = 0.
Proof.
  intros Hnil. unfold general_score. rewrite Hnil. cbn [fold_left].
  destruct (_ && _); [reflexivity |].
  destruct (Rlt_dec 0 0); [lra | reflexivity].
Qed.

Lemma azuro_score_bounds (y : R) (cutoff reg : datetime)
    (pi : option (gmap Z IntervalData)) :
  0 <= y <= 1 -> 0 <= azuro_score y cutoff reg pi <= 1.
Proof.
  intros Hy. unfold azuro_score.
  case_bool_decide.
  - apply brier_score_bounds, Hy.
  - destruct (_ && _); [lra |].
    destruct (azuro_pick _); [apply brier_score_bounds, Hy | lra].
Qed.

Lemma miner_score_bounds (v : Validator) (pe : ProviderEvent) (y : R)
    (predictions : gmap nat (gmap Z IntervalData)) (uid : nat) :
  0 <= y <= 1 -> 0 <= miner_score v pe y predictions uid <= 1.
Proof.
  intros Hy. unfold miner_score. case_bool_decide.
  - apply azuro_score_bounds, Hy.
  - apply general_score_bounds, Hy.
Qed.

Lemma all_nonpositive_nonneg (scores : list R) :
  Forall (fun s => 0 <= s) scores ->
  all_nonpositive scores = true ->
  Forall (fun s => s = 0) scores.
Proof.
  unfold all_nonpositive.
  induction 1 as [| s l Hs _ IH]; cbn [forallb]; intros Hall.
  - constructor.
  - apply andb_true_iff in Hall. destruct Hall as [H1 H2].
    constructor; [| apply IH, H2].
    destruct (Rle_dec s 0); [lra | discriminate].
Qed.

Lemma all_nonpositive_exists (scores : list R) :
  all_nonpositive scores = false -> Exists (fun s => 0 < s) scores.
Proof.
  unfold all_nonpositive.
  induction scores as [| s l IH]; cbn [forallb]; intros Hall.
  - discriminate.
  - apply andb_false_iff in Hall. destruct Hall as [H1 | H2].
    + left. destruct (Rle_dec s 0); [discriminate | lra].
    + right. apply IH, H2.
Qed.

Lemma normalize_l1_length (v : list R) :
  length (normalize_l1 v) = length v.
Proof. unfold normalize_l1. apply length_map. Qed.

Lemma sharpen_length (scores : list R) :
  length (sharpen scores) = length scores.
Proof.
  unfold sharpen. destruct (all_nonpositive scores); [reflexivity |].
  apply length_map.
Qed.

Lemma sharpen_nonneg (scores : list R) :
  Forall (fun s => 0 <= s) scores -> Forall (fun s => 0 <= s) (sharpen scores).
Proof.
  intros Hpos. unfold sharpen.
  destruct (all_nonpositive scores); [exact Hpos |].
  apply Forall_map, Forall_forall. intros s _.
  apply sharpen_entry_nonneg.
Qed.

Lemma normalize_l1_unit (v : list R) :
  Forall (fun x => 0 <= x) v ->
  Forall (fun x => 0 <= x <= 1) (normalize_l1 v).
Proof.
  intros Hpos. unfold normalize_l1, l1_norm.
  rewrite (Rsum_abs_nonneg v Hpos).
  pose proof normalize_eps_small as Heps.
  apply Forall_map, Forall_forall. intros x Hx.
  apply list_elem_of_In in Hx.
  pose proof (Rsum_ge_member v x Hpos Hx) as Hle.
  pose proof (proj1 (Forall_forall _ _) Hpos x
                (proj2 (list_elem_of_In _ _) Hx)) as Hx0.
  cbn beta in Hx0.
  pose proof (Rmax_l (Rsum v) normalize_eps) as Hl.
  pose proof (Rmax_r (Rsum v) normalize_eps) as Hr.
  apply Rdiv_unit_interval; lra.
Qed.

Lemma scoring_window_length_aux (registered cutoff now : datetime) :
  length (window_intervals (scoring_window registered cutoff now))
  = Z.to_nat (total_intervals (scoring_window registered cutoff now)).
Proof.
  pose proof (window_span_exact registered cutoff now) as Hspan.
  unfold window_intervals.
  replace (effective_finish_start_minutes (scoring_window registered cutoff now))
    with (start_interval_start_minutes (scoring_window registered cutoff now)
          + CLUSTERED_SUBMISSIONS_INTERVAL_MINUTES
            * total_intervals (scoring_window registered cutoff now))%Z
    by lia.
  apply py_range_length_exact. reflexivity.
Qed.

End HookOutputs.

Section HookOutputClaims.

Local Open Scope R_scope.

(** When the interval of [min(cutoff, now)] is not after the interval of
    the event's registration, the window of the general branch is empty:
    every peer gets the raw score 0, whatever it answered, and every
    normalised score is 0. *)
Theorem empty_window_scores_nobody (v : Validator) (pe : ProviderEvent)
    (y : R) (predictions : gmap nat (gmap Z IntervalData)) :
  effective_market_type pe <> "azuro"%string ->
  let w := scoring_window (registered_date pe) (latest_submit_date v pe)
                          (now v) in
  (effective_finish_start_minutes w <= start_interval_start_minutes w)%Z ->
  (total_intervals w <= 0)%Z
  /\ window_intervals w = []
  /\ Forall (fun s => s = 0) (raw_scores v pe y predictions)
  /\ Forall (fun s => s = 0)
       (normalize_l1 (sharpen (raw_scores v pe y predictions))).
Proof.
  intros Hmarket w Hle.
  pose proof (window_intervals_empty w Hle) as Hnil.
  assert (Forall (fun s => s = 0) (raw_scores v pe y predictions)) as Hraw.
  { unfold raw_scores. apply Forall_map, Forall_forall. intros uid _.
    unfold miner_score. rewrite bool_decide_eq_false_2 by assumption.
    apply general_score_empty_window. exact Hnil. }
  split; [| split; [exact Hnil | split; [exact Hraw |]]].
  - pose proof (window_span_exact (registered_date pe)
                  (latest_submit_date v pe) (now v)) as Hspan.
    fold w in Hspan.
    change CLUSTERED_SUBMISSIONS_INTERVAL_MINUTES with 240%Z in Hspan. lia.
  - unfold sharpen. rewrite (all_nonpositive_zero _ Hraw).
    apply normalize_l1_zero, Hraw.
Qed.

(** The short event of the cases is registered and closed inside one
    interval. *)
Lemma empty_window_scores_nobody_case :
  Forall (fun s => s = 0)
    (raw_scores Cases.short_validator Cases.short_event 1
       Scenario.predictions).
Proof.
  apply (empty_window_scores_nobody Cases.short_validator Cases.short_event 1
           Scenario.predictions).
  - discriminate.
  - vm_compute. discriminate.
Defined.

(** For a settled event with a ground truth in [[0,1]] and at least one
    submission, in either branch, the hook scores every slot of the
    metagraph: the raw and the normalised vectors have one entry per slot,
    every raw and every normalised score lies in [[0,1]], and the normalised
    scores sum to 1 when some raw score is positive and are all 0
    otherwise. *)
Theorem on_event_update_scores (v : Validator) (pe : ProviderEvent) (y : R) :
  0 <= y <= 1 ->
  status pe = SETTLED ->
  answer pe = Some y ->
  get_event_predictions v pe <> ∅ ->
  exists raw norm : list R,
    on_event_update v pe
    = (true, [UpdateScores norm (seq 0 (metagraph_n v));
              ExportScores pe (zip (zip (seq 0 (metagraph_n v)) raw) norm)])
    /\ length raw = metagraph_n v
    /\ length norm = metagraph_n v
    /\ Forall (fun s => 0 <= s <= 1) raw
    /\ Forall (fun s => 0 <= s <= 1) norm
    /\ ((Exists (fun s => 0 < s) raw /\ Rsum norm = 1)
        \/ (Forall (fun s => s = 0) raw /\ Forall (fun s => s = 0) norm)).
Proof.
  intros Hy Hst Hans Hne.
  set (raw := raw_scores v pe y (get_event_predictions v pe)).
  exists raw, (normalize_l1 (sharpen raw)).
  assert (Forall (fun s => 0 <= s <= 1) raw) as Hraw.
  { unfold raw, raw_scores. apply Forall_map, Forall_forall. intros uid _.
    apply miner_score_bounds, Hy. }
  assert (Forall (fun s => 0 <= s) raw) as Hpos.
  { eapply Forall_impl; [exact Hraw |]. cbn. intros s Hs. lra. }
  split.
  { unfold on_event_update. rewrite Hst, Hans.
    rewrite bool_decide_eq_false_2 by assumption. reflexivity. }
  split; [unfold raw, raw_scores; rewrite length_map; apply length_seq |].
  split.
  { rewrite normalize_l1_length, sharpen_length.
    unfold raw, raw_scores. rewrite length_map. apply length_seq. }
  split; [exact Hraw |].
  split; [apply normalize_l1_unit, sharpen_nonneg, Hpos |].
  destruct (all_nonpositive raw) eqn:Hall.
  - right. pose proof (all_nonpositive_nonneg raw Hpos Hall) as Hz.
    split; [exact Hz |].
    unfold sharpen. rewrite Hall. apply normalize_l1_zero, Hz.
  - left. pose proof (all_nonpositive_exists raw Hall) as Hex.
    split; [exact Hex |].
    rewrite (sharpen_positive _ Hex).
    apply normalize_l1_sum.
    + apply Forall_map, Forall_forall. intros s _. apply sharpen_entry_nonneg.
    + apply Exists_exists in Hex. destruct Hex as [s [Hin Hs]].
      pose proof (sharpen_entry_gt_1 s Hs) as Hgt.
      assert (sharpen_entry s <= Rsum (map sharpen_entry raw)).
      { apply Rsum_ge_member.
        - apply Forall_map, Forall_forall. intros z _.
          apply sharpen_entry_nonneg.
        - apply in_map, list_elem_of_In, Hin. }
      lra.
Qed.

(** The settled event of the scenario. *)
Lemma on_event_update_scores_scenario :
  exists raw norm : list R,
    on_event_update Scenario.validator Scenario.event
    = (true, [UpdateScores norm (seq 0 2);
              ExportScores Scenario.event (zip (zip (seq 0 2) raw) norm)])
    /\ length raw = 2%nat
    /\ length norm = 2%nat
    /\ Forall (fun s => 0 <= s <= 1) raw
    /\ Forall (fun s => 0 <= s <= 1) norm
    /\ ((Exists (fun s => 0 < s) raw /\ Rsum norm = 1)
        \/ (Forall (fun s => s = 0) raw /\ Forall (fun s => s = 0) norm)).
Proof.
  apply (on_event_update_scores Scenario.validator Scenario.event 1).
  - lra.
  - reflexivity.
  - reflexivity.
  - intros Hempty.
    assert (Scenario.predictions !! 0%nat = None) as Hnone
      by (change (get_event_predictions Scenario.validator Scenario.event)
            with Scenario.predictions in Hempty;
          rewrite Hempty; apply lookup_empty).
    discriminate Hnone.
Defined.

End HookOutputClaims.

Section NormalisationOrder.

Local Open Scope R_scope.

Lemma map_lookup {A B : Type} (f : A -> B) (l : list A) (i : nat) :
  map f l !! i = f <$> (l !! i).
Proof.
  revert i. induction l as [| x l IH]; intros [| i]; cbn; try reflexivity.
  apply IH.
Qed.

Lemma sharpen_entry_mono (s t : R) :
  0 <= s -> s < t -> sharpen_entry s < sharpen_entry t.
Proof.
  intros Hs Hst. unfold sharpen_entry.
  destruct (Req_dec_T s 0) as [-> | Hs0]; destruct (Req_dec_T t 0); try lra.
  - pose proof (exp_pos (30 * t)). lra.
  - pose proof (exp_increasing (30 * s) (30 * t) ltac:(lra)). lra.
Qed.

(** Sharpening and normalisation keep the order of the peers: among
    non-negative raw scores a strictly higher raw score gets a strictly
    higher normalised score, and a raw score of 0 stays 0. *)
Theorem normalization_preserves_order (scores : list R) (i j : nat)
    (si sj : R) :
  Forall (fun s => 0 <= s) scores ->
  scores !! i = Some si ->
  scores !! j = Some sj ->
  si < sj ->
  exists ni nj : R,
    normalize_l1 (sharpen scores) !! i = Some ni
    /\ normalize_l1 (sharpen scores) !! j = Some nj
    /\ ni < nj
    /\ (si = 0 -> ni = 0).
Proof.
  intros Hpos Hi Hj Hlt.
  assert (0 <= si) as Hsi.
  { apply (proj1 (Forall_forall _ _) Hpos si).
    apply list_elem_of_lookup. eauto. }
  assert (Exists (fun s => 0 < s) scores) as Hex.
  { apply Exists_exists. exists sj. split; [| lra].
    apply list_elem_of_lookup. eauto. }
  rewrite (sharpen_positive _ Hex).
  unfold normalize_l1.
  set (d := Rmax (l1_norm (map sharpen_entry scores)) normalize_eps).
  assert (0 < d) as Hd.
  { pose proof normalize_eps_small.
    pose proof (Rmax_r (l1_norm (map sharpen_entry scores)) normalize_eps).
    unfold d. lra. }
  exists (sharpen_entry si / d), (sharpen_entry sj / d).
  rewrite !map_lookup, Hi, Hj. cbn.
  split; [reflexivity |]. split; [reflexivity |]. split.
  - pose proof (sharpen_entry_mono si sj Hsi Hlt).
    pose proof (Rinv_0_lt_compat d Hd).
    unfold Rdiv. apply Rmult_lt_compat_r; assumption.
  - intros ->. unfold sharpen_entry.
    destruct (Req_dec_T 0 0); [| lra]. unfold Rdiv. apply Rmult_0_l.
Qed.

(** Two peers with raw scores 0 and 1. *)
Lemma normalization_preserves_order_case :
  exists ni nj : R,
    normalize_l1 (sharpen [0; 1]) !! 0%nat = Some ni
    /\ normalize_l1 (sharpen [0; 1]) !! 1%nat = Some nj
    /\ ni < nj
    /\ (0 = 0 -> ni = 0).
Proof.
  apply (normalization_preserves_order [0; 1] 0 1 0 1).
  - repeat constructor; lra.
  - reflexivity.
  - reflexivity.
  - lra.
Defined.

End NormalisationOrder.

(* ===================================================================== *)
(** * Further properties of the interval clock and of dispatch *)
(* ===================================================================== *)

Section ClockLabels.

Lemma minutes_since_epoch_nonneg (t : datetime) :
  0 <= t -> minutes_since_epoch t = t / (MICROSECONDS_PER_SECOND * 60).
Proof.
  intros Ht. unfold minutes_since_epoch, MICROSECONDS_PER_SECOND.
  rewrite Z.quot_div_nonneg by lia.
  rewrite Z.div_div by lia. reflexivity.
Qed.

(** The label that a dispatch round attaches to its submissions is the
    interval whose start and end dates, as the scoring loop computes them,
    enclose the instant of the round: for an aligned [s >= 0] and an
    instant [t] with [epoch + s min <= t < epoch + (s + 240) min], the
    label of [t] is [s]. *)
Theorem label_of_instant_in_interval (s : Z) (t : datetime) :
  0 <= s ->
  s mod 240 = 0 ->
  epoch_plus_minutes s <= t
  < epoch_plus_minutes (s + CLUSTERED_SUBMISSIONS_INTERVAL_MINUTES) ->
  get_interval_start_minutes t = s.
Proof.
  intros Hs Hmod Ht.
  unfold epoch_plus_minutes, MICROSECONDS_PER_SECOND in Ht.
  change CLUSTERED_SUBMISSIONS_INTERVAL_MINUTES with 240 in Ht.
  rewrite get_interval_start_minutes_eq.
  rewrite minutes_since_epoch_nonneg by lia.
  unfold MICROSECONDS_PER_SECOND.
  symmetry. apply interval_start_unique.
  - exact Hmod.
  - change CLUSTERED_SUBMISSIONS_INTERVAL_MINUTES with 240. split.
    + apply Z.div_le_lower_bound; lia.
    + apply Z.div_lt_upper_bound; lia.
Qed.

(** An instant 100 minutes and one second into interval 240. *)
Lemma label_of_instant_in_interval_case :
  get_interval_start_minutes (epoch_plus_minutes 340 + 1000000) = 240.
Proof.
  apply (label_of_instant_in_interval 240 (epoch_plus_minutes 340 + 1000000)).
  - lia.
  - reflexivity.
  - vm_compute. split; discriminate || reflexivity.
Defined.

End ClockLabels.

Import Request.

Section GetAxons.

Variable m : Metagraph.

Local Abbreviation axon_step :=
  (fun (acc : option (gmap nat AxonInfo)) (uid : nat) =>
     found ← acc;
     axon ← axons m !! uid;
     Some match axon with
          | Some a => if is_serving a then <[uid := a]> found else found
          | None => found
          end).

Lemma axon_step_raised (l : list nat) : foldl axon_step None l = None.
Proof. induction l as [| uid l IH]; [reflexivity | exact IH]. Qed.

Lemma axon_step_out_of_range (l : list nat) (acc : gmap nat AxonInfo) :
  (exists uid : nat, uid ∈ l /\ axons m !! uid = None) ->
  foldl axon_step (Some acc) l = None.
Proof.
  revert acc. induction l as [| u l IH]; intros acc [uid [Hin Hout]].
  - apply elem_of_nil in Hin. contradiction.
  - cbn [foldl]. cbn [mbind option_bind].
    destruct (axons m !! u) as [entry |] eqn:Hu.
    + cbn. apply IH. exists uid. split; [| exact Hout].
      apply elem_of_cons in Hin. destruct Hin as [-> | Hin]; [congruence | exact Hin].
    + cbn. apply axon_step_raised.
Qed.

Lemma axon_step_in_range (l : list nat) (acc : gmap nat AxonInfo) :
  (forall uid : nat, uid ∈ l -> is_Some (axons m !! uid)) ->
  (forall (uid : nat) (a : AxonInfo),
      acc !! uid = Some a -> serving_at m uid a) ->
  exists acc' : gmap nat AxonInfo,
    foldl axon_step (Some acc) l = Some acc'
    /\ (forall (uid : nat) (a : AxonInfo),
          acc' !! uid = Some a
          <-> acc !! uid = Some a \/ (uid ∈ l /\ serving_at m uid a)).
Proof.
  revert acc. induction l as [| u l IH]; intros acc Hrange Hacc.
  - exists acc. split; [reflexivity |]. intros uid a. split; [auto |].
    intros [H | [Hin _]]; [exact H |]. apply elem_of_nil in Hin. contradiction.
  - destruct (Hrange u (list_elem_of_here u l)) as [entry Hu].
    cbn [foldl]. cbn [mbind option_bind]. rewrite Hu. cbn.
    set (acc1 := match entry with
                 | Some a => if is_serving a then <[u:=a]> acc else acc
                 | None => acc
                 end).
    assert (forall (uid : nat) (a : AxonInfo),
               acc1 !! uid = Some a
               <-> acc !! uid = Some a \/ (uid = u /\ serving_at m uid a))
      as Hacc1.
    { intros uid a. unfold acc1, serving_at.
      destruct entry as [au |]; [destruct (is_serving au) eqn:Hserv |].
      - destruct (decide (uid = u)) as [-> | Hne].
        + rewrite lookup_insert_eq. split.
          * intros [= ->]. right. auto.
          * intros [H | [_ [H _]]].
            -- apply Hacc in H. destruct H as [H _]. congruence.
            -- congruence.
        + rewrite lookup_insert_ne by congruence. split; [auto |].
          intros [H | [H _]]; [exact H | contradiction].
      - split; [auto |]. intros [H | [-> [H1 H2]]]; [exact H |].
        rewrite Hu in H1. injection H1 as ->. congruence.
      - split; [auto |]. intros [H | [-> [H1 _]]]; [exact H |].
        rewrite Hu in H1. discriminate. }
    destruct (IH acc1) as [acc' [Hfold Hspec]].
    + intros uid Hin. apply Hrange. apply list_elem_of_further, Hin.
    + intros uid a H. apply Hacc1 in H. destruct H as [H | [_ H]];
        [apply Hacc, H | exact H].
    + exists acc'. split; [exact Hfold |].
      intros uid a. rewrite Hspec, Hacc1, elem_of_cons. tauto.
Qed.

Lemma get_axons_in_range :
  (forall uid : nat, uid ∈ uids m -> is_Some (axons m !! uid)) ->
  exists axs : gmap nat AxonInfo,
    get_axons m = Some axs
    /\ (forall (uid : nat) (a : AxonInfo),
          axs !! uid = Some a <-> uid ∈ uids m /\ serving_at m uid a).
Proof.
  intros Hrange.
  destruct (axon_step_in_range (uids m) ∅ Hrange) as [axs [Hfold Hspec]].
  { intros uid a H. rewrite lookup_empty in H. discriminate. }
  exists axs. split; [exact Hfold |].
  intros uid a. rewrite Hspec, lookup_empty. split.
  - intros [H | H]; [discriminate | exact H].
  - auto.
Qed.

Lemma get_axons_out_of_range :
  (exists uid : nat, uid ∈ uids m /\ axons m !! uid = None) ->
  get_axons m = None.
Proof. apply axon_step_out_of_range. Qed.

End GetAxons.

Section GetAxonsClaim.

(** [get_axons] raises exactly when [metagraph.uids] names a slot beyond
    [metagraph.axons]; otherwise it returns the serving axons and only
    them: a slot is a key of the result, with its axon, if and only if it
    is listed in [metagraph.uids], its axon is present and
    [is_serving] is [True]. *)
Theorem get_axons_spec (m : Metagraph) :
  match get_axons m with
  | Some axs =>
      (forall uid : nat, uid ∈ uids m -> (uid < length (axons m))%nat)
      /\ (forall (uid : nat) (a : AxonInfo),
            axs !! uid = Some a
            <-> uid ∈ uids m
                /\ axons m !! uid = Some (Some a)
                /\ is_serving a = true)
  | None =>
      exists uid : nat, uid ∈ uids m /\ (length (axons m) <= uid)%nat
  end.
Proof.
  destruct (decide (Forall (fun uid => uid < length (axons m))%nat (uids m)))
    as [Hall | Hnot].
  - rewrite Forall_forall in Hall.
    destruct (get_axons_in_range m) as [axs [-> Hspec]].
    + intros uid Hin. apply lookup_lt_is_Some, Hall, Hin.
    + split; [exact Hall | exact Hspec].
  - apply not_Forall_Exists in Hnot; [| intros uid; apply _].
    apply Exists_exists in Hnot. destruct Hnot as [uid [Hin Hge]].
    unfold compose in Hge.
    rewrite get_axons_out_of_range.
    + exists uid. split; [exact Hin | lia].
    + exists uid. split; [exact Hin |]. apply lookup_ge_None. lia.
Qed.

End GetAxonsClaim.

Section RequestEntries.

Local Abbreviation file_row :=
  (fun (compiled : gmap string EventPrediction) (event : EventRow) =>
     <[compiled_key event := compiled_entry event]> compiled).

Lemma make_predictions_synapse_fold (rows : list EventRow) :
  events (make_predictions_synapse rows) = foldl file_row ∅ rows.
Proof. reflexivity. Qed.

Lemma file_row_lookup (rows : list EventRow)
    (acc : gmap string EventPrediction) (k : string) (ep : EventPrediction) :
  foldl file_row acc rows !! k = Some ep ->
  acc !! k = Some ep
  \/ exists row : EventRow,
       row ∈ rows /\ k = compiled_key row /\ ep = compiled_entry row.
Proof.
  revert acc. induction rows as [| row rows IH]; intros acc H.
  - left. exact H.
  - cbn [foldl] in H. apply IH in H. destruct H as [H | [r [Hin Hr]]].
    + destruct (decide (compiled_key row = k)) as [<- | Hne].
      * rewrite lookup_insert_eq in H. injection H as <-.
        right. exists row. split; [apply list_elem_of_here | auto].
      * rewrite lookup_insert_ne in H by exact Hne. left. exact H.
    + right. exists r. split; [apply list_elem_of_further, Hin | exact Hr].
Qed.

Lemma file_row_keeps (rows : list EventRow)
    (acc : gmap string EventPrediction) (k : string) (ep : EventPrediction) :
  acc !! k = Some ep ->
  (forall r : EventRow, r ∈ rows -> compiled_key r <> k) ->
  foldl file_row acc rows !! k = Some ep.
Proof.
  revert acc. induction rows as [| row rows IH]; intros acc Hk Hfresh.
  - exact Hk.
  - cbn [foldl]. apply IH.
    + rewrite lookup_insert_ne; [exact Hk |].
      apply Hfresh, list_elem_of_here.
    + intros r Hin. apply Hfresh, list_elem_of_further, Hin.
Qed.

Lemma file_row_present (rows : list EventRow)
    (acc : gmap string EventPrediction) (row : EventRow) :
  row ∈ rows -> is_Some (foldl file_row acc rows !! compiled_key row).
Proof.
  revert acc row. induction rows as [| r rows IH]; intros acc row Hin.
  - apply elem_of_nil in Hin. contradiction.
  - cbn [foldl].
    apply elem_of_cons in Hin. destruct Hin as [-> | Hlater].
    + destruct (decide (Exists (fun r' => compiled_key r' = compiled_key r) rows))
        as [Hex | Hno].
      * apply Exists_exists in Hex. destruct Hex as [r' [Hin' Hkey]].
        rewrite <- Hkey. apply IH, Hin'.
      * exists (compiled_entry r). apply file_row_keeps.
        -- apply lookup_insert_eq.
        -- intros r' Hin' Hkey. apply Hno, Exists_exists. eauto.
    + apply IH, Hlater.
Qed.

End RequestEntries.

Section RequestEntriesClaim.

(** The request built from the rows of open events has an entry for every
    row, under the key [market_type-event_id] with the market type in lower
    case; every entry is that of some row and starts unanswered
    ([probability] is [None], [miner_answered] is [False]); when several
    rows share a key, the entry is that of the last of them. *)
Theorem make_predictions_synapse_entries (rows : list EventRow) :
  (forall row : EventRow,
      row ∈ rows ->
      is_Some (events (make_predictions_synapse rows) !! compiled_key row))
  /\ (forall (k : string) (ep : EventPrediction),
        events (make_predictions_synapse rows) !! k = Some ep ->
        probability ep = None
        /\ miner_answered ep = false
        /\ k = (ep_market_type ep ++ "-" ++ ep_event_id ep)%string
        /\ exists row : EventRow,
             row ∈ rows
             /\ ep = compiled_entry row
             /\ ep_event_id ep = row_event_id row
             /\ ep_market_type ep
                = lower (default (row_market_type row)
                                 (row_metadata_market_type row)))
  /\ (forall (before after : list EventRow) (row : EventRow),
        rows = before ++ row :: after ->
        (forall r : EventRow,
            r ∈ after -> compiled_key r <> compiled_key row) ->
        events (make_predictions_synapse rows) !! compiled_key row
        = Some (compiled_entry row)).
Proof.
  rewrite make_predictions_synapse_fold.
  split; [| split].
  - intros row Hin. apply file_row_present, Hin.
  - intros k ep H. apply file_row_lookup in H.
    destruct H as [H | [row [Hin [-> ->]]]].
    + rewrite lookup_empty in H. discriminate.
    + split; [reflexivity |]. split; [reflexivity |].
      split; [reflexivity |]. exists row. auto.
  - intros before after row -> Hfresh.
    rewrite foldl_app. cbn [foldl].
    apply file_row_keeps; [apply lookup_insert_eq | exact Hfresh].
Qed.

End RequestEntriesClaim.

Section QueryNeurons.

Local Abbreviation file_reply :=
  (fun (responses_by_uid : gmap nat EventsPredictionSynapse)
       '(uid, response) => <[uid := response]> responses_by_uid).

Lemma file_reply_lookup (l : list (nat * EventsPredictionSynapse))
    (acc : gmap nat EventsPredictionSynapse) (k : nat)
    (v : EventsPredictionSynapse) :
  NoDup l.*1 ->
  foldl file_reply acc l !! k = Some v
  <-> ((k, v) ∈ l) \/ ((k ∉ l.*1) /\ acc !! k = Some v).
Proof.
  revert acc. induction l as [| [u r] l IH]; intros acc Hnd.
  - cbn. split.
    + intros H. right. split; [apply not_elem_of_nil | exact H].
    + intros [H | [_ H]]; [apply elem_of_nil in H; contradiction | exact H].
  - cbn in Hnd. apply NoDup_cons in Hnd. destruct Hnd as [Hfresh Hnd].
    cbn [foldl]. rewrite (IH _ Hnd). cbn [fmap list_fmap fst].
    rewrite !elem_of_cons. split.
    + intros [H | [Hk H]]; [auto |].
      destruct (decide (u = k)) as [-> | Hne].
      * rewrite lookup_insert_eq in H. injection H as ->. auto.
      * rewrite lookup_insert_ne in H by exact Hne.
        right. split; [| exact H]. intros [-> | Hin]; [congruence | contradiction].
    + intros [[Heq | Hin] | [Hk H]].
      * injection Heq as -> ->. right. split; [exact Hfresh |].
        apply lookup_insert_eq.
      * auto.
      * right. split; [tauto |].
        rewrite lookup_insert_ne; [exact H |]. intros ->. tauto.
Qed.

Lemma zip_fst_elem {A B : Type} (l : list A) (k : list B) (x : A) :
  x ∈ (zip l k).*1 -> x ∈ l.
Proof.
  intros H. apply list_elem_of_fmap in H. destruct H as [[a b] [-> H]].
  apply elem_of_zip_l in H. exact H.
Qed.

Lemma zip_fst_NoDup {A B : Type} (l : list A) (k : list B) :
  NoDup l -> NoDup (zip l k).*1.
Proof.
  revert k. induction l as [| a l IH]; intros k Hnd; [constructor |].
  apply NoDup_cons in Hnd. destruct Hnd as [Hfresh Hnd].
  destruct k as [| b k]; [constructor |].
  cbn. apply NoDup_cons. split; [| apply IH, Hnd].
  intros H. apply Hfresh. eapply zip_fst_elem. exact H.
Qed.

Lemma zip_elem_lookup {A B : Type} (l : list A) (k : list B) (a : A) (b : B) :
  (a, b) ∈ zip l k <-> exists i : nat, l !! i = Some a /\ k !! i = Some b.
Proof.
  rewrite elem_of_lookup_zip_with. split.
  - intros [i [x [y [Heq [Hx Hy]]]]]. injection Heq as -> ->. eauto.
  - intros [i [Hx Hy]]. exists i, a, b. auto.
Qed.

(** What [query_neurons] returns and does. *)
Lemma query_neurons_eq (w : Collaborators) (axs : gmap nat AxonInfo)
    (syn : EventsPredictionSynapse) (s : TaskState) :
  exists rbu : gmap nat EventsPredictionSynapse,
    query_neurons w axs syn s
    = Some (rbu,
            {| metagraph := metagraph s;
               calls := calls s
                        ++ [DendriteForward (map_to_list axs).*2 syn 120] |})
    /\ (forall (uid : nat) (r : EventsPredictionSynapse),
          rbu !! uid = Some r
          <-> exists i : nat,
                (map_to_list axs).*1 !! i = Some uid
                /\ replies w (map_to_list axs).*2 syn !! i = Some r).
Proof.
  exists (foldl file_reply ∅
            (zip (map_to_list axs).*1 (replies w (map_to_list axs).*2 syn))).
  split; [reflexivity |].
  intros uid r.
  rewrite file_reply_lookup
    by (apply zip_fst_NoDup, NoDup_fst_map_to_list).
  rewrite zip_elem_lookup, lookup_empty. split.
  - intros [H | [_ H]]; [exact H | discriminate].
  - auto.
Qed.

Lemma query_neurons_dom (w : Collaborators) (axs : gmap nat AxonInfo)
    (syn : EventsPredictionSynapse) (rbu : gmap nat EventsPredictionSynapse) :
  (forall (uid : nat) (r : EventsPredictionSynapse),
      rbu !! uid = Some r
      <-> exists i : nat,
            (map_to_list axs).*1 !! i = Some uid
            /\ replies w (map_to_list axs).*2 syn !! i = Some r) ->
  forall (uid : nat) (r : EventsPredictionSynapse),
    rbu !! uid = Some r -> is_Some (axs !! uid).
Proof.
  intros Hspec uid r H. apply Hspec in H. destruct H as [i [Hi _]].
  rewrite list_lookup_fmap in Hi.
  destruct (map_to_list axs !! i) as [[u a] |] eqn:Hl; [| discriminate].
  cbn in Hi. injection Hi as ->.
  exists a. apply elem_of_map_to_list. apply list_elem_of_lookup. eauto.
Qed.

End QueryNeurons.

Section QueryNeuronsClaim.

(** [query_neurons] sends one request, with the timeout 120, to all the
    axons it is given; every peer is filed with the reply at its own
    position in the list of axons sent, so the peers that are filed are
    among those queried, and when there are at least as many replies as
    axons every queried peer is filed. *)
Theorem query_neurons_spec (w : Collaborators) (axs : gmap nat AxonInfo)
    (syn : EventsPredictionSynapse) (s : TaskState) :
  exists rbu : gmap nat EventsPredictionSynapse,
    query_neurons w axs syn s
    = Some (rbu,
            {| metagraph := metagraph s;
               calls := calls s
                        ++ [DendriteForward (map_to_list axs).*2 syn 120] |})
    /\ (forall (uid : nat) (r : EventsPredictionSynapse),
          rbu !! uid = Some r
          <-> exists i : nat,
                (map_to_list axs).*1 !! i = Some uid
                /\ replies w (map_to_list axs).*2 syn !! i = Some r)
    /\ dom rbu ⊆ dom axs
    /\ ((size axs <= length (replies w (map_to_list axs).*2 syn))%nat ->
        dom rbu = dom axs).
Proof.
  destruct (query_neurons_eq w axs syn s) as [rbu [Heq Hspec]].
  exists rbu. split; [exact Heq |]. split; [exact Hspec |].
  assert (dom rbu ⊆ dom axs) as Hsub.
  { intros uid Hin. apply elem_of_dom in Hin. destruct Hin as [r Hr].
    apply elem_of_dom. eapply query_neurons_dom; eassumption. }
  split; [exact Hsub |].
  intros Hlen. apply (anti_symm (⊆)); [exact Hsub |].
  intros uid Hin. apply elem_of_dom in Hin. destruct Hin as [a Ha].
  apply elem_of_map_to_list, list_elem_of_lookup in Ha.
  destruct Ha as [i Hi].
  assert (i < length (replies w (map_to_list axs).*2 syn))%nat as Hi'.
  { apply lookup_lt_Some in Hi. rewrite length_map_to_list in Hi. lia. }
  apply lookup_lt_is_Some in Hi'. destruct Hi' as [r Hr].
  apply elem_of_dom. exists r. apply Hspec. exists i.
  split; [| exact Hr]. rewrite list_lookup_fmap, Hi. reflexivity.
Qed.

End QueryNeuronsClaim.

Section RunPath.

Variables (w : Collaborators) (s : TaskState).

Local Abbreviation synced_metagraph := (synced w (metagraph s)).

Local Abbreviation after_sync :=
  {| metagraph := synced w (metagraph s);
     calls := (calls s ++ [GetEventsToPredict]) ++ [MetagraphSync] |}.

Lemma run_eq :
  events_to_predict w <> [] ->
  run w s
  = match get_axons synced_metagraph with
    | None => None
    | Some axs =>
        if (size axs =? 0)%nat then Some (tt, after_sync)
        else
          match query_neurons w axs
                  (make_predictions_synapse (events_to_predict w)) after_sync
          with
          | Some (rbu, s3) =>
              store_predictions (block synced_metagraph)
                (get_interval_start_minutes (utc_now w)) rbu s3
          | None => None
          end
    end.
Proof.
  intros Hne. unfold run.
  destruct (events_to_predict w) as [| row rows] eqn:Hrows; [congruence |].
  unfold task_bind, call, read_metagraph, write_metagraph, lift_option.
  cbn [length Nat.eqb metagraph calls].
  destruct (get_axons synced_metagraph) as [axs |]; [| reflexivity].
  cbn. destruct (size axs =? 0)%nat; reflexivity.
Qed.

Lemma parsed_record (m : Metagraph) (block ism : Z)
    (l : list (nat * EventsPredictionSynapse))
    (batches : list (list Prediction)) (p : Prediction) :
  Forall2 (fun entry ps =>
             parse_neuron_predictions m block ism (fst entry) (snd entry)
             = Some ps) l batches ->
  p ∈ concat batches ->
  exists (uid : nat) (r : EventsPredictionSynapse) (a : AxonInfo)
         (e : string) (ep : EventPrediction),
    (uid, r) ∈ l
    /\ axons m !! uid = Some (Some a)
    /\ events r !! e = Some ep
    /\ p = (e, hotkey a, uid, probability ep, ism, probability ep, block,
            probability ep).
Proof.
  induction 1 as [| [uid r] ps l batches Hps _ IH]; intros Hin.
  - apply elem_of_nil in Hin. contradiction.
  - cbn [concat] in Hin. apply elem_of_app in Hin.
    destruct Hin as [Hin | Hin].
    + apply parse_neuron_predictions_eq in Hps.
      destruct Hps as [a [Hax ->]]. cbn [fst snd] in *.
      apply list_elem_of_In, in_map_iff in Hin.
      destruct Hin as [[e ep] [<- Hin]].
      apply list_elem_of_In, elem_of_map_to_list in Hin.
      exists uid, r, a, e, ep.
      split; [apply list_elem_of_here |]. auto.
    + destruct (IH Hin) as [uid' [r' [a [e [ep [Hl H]]]]]].
      exists uid', r', a, e, ep. split; [apply list_elem_of_further, Hl | exact H].
Qed.

End RunPath.

Section RunClaim.



End RunClaim.

(* ===================================================================== *)
(** * The reply-processing loop of [forward] *)
(* ===================================================================== *)

Import ForwardLoop.

Section CollectColumns.

Variable ev : EventProvider.

Lemma entry_fold (uid : nat) (l : list (string * EventData)) (cols : Columns) :
  columns_extend cols (foldl (entry_step ev uid) cols l)
    (map (entry_row ev uid) l).
Proof.
  revert cols. induction l as [| [id d] l IH]; intros cols.
  - unfold columns_extend. cbn. rewrite !app_nil_r. auto.
  - cbn [foldl]. destruct (IH (entry_step ev uid cols (id, d)))
      as [H1 [H2 [H3 H4]]].
    unfold columns_extend. rewrite H1, H2, H3, H4.
    cbn. rewrite <- !app_assoc. auto.
Qed.

Lemma response_fold (pairs : list (nat * Response)) (cols : Columns) :
  columns_extend cols (foldl (response_step ev) cols pairs)
    (concat (map (fun pair : nat * Response =>
                    map (entry_row ev (fst pair))
                        (map_to_list (resp_events (snd pair)))) pairs)).
Proof.
  revert cols. induction pairs as [| [uid resp] pairs IH]; intros cols.
  - unfold columns_extend. cbn. rewrite !app_nil_r. auto.
  - cbn [foldl map concat].
    destruct (IH (response_step ev cols (uid, resp))) as [H1 [H2 [H3 H4]]].
    destruct (entry_fold uid (map_to_list (resp_events resp)) cols)
      as [E1 [E2 [E3 E4]]].
    unfold columns_extend. cbn [fst snd].
    rewrite H1, H2, H3, H4. unfold response_step.
    rewrite E1, E2, E3, E4, !map_app, <- !app_assoc. auto.
Qed.

Lemma collect_columns (miner_uids : list nat) (responses : list Response) :
  provider_events (collect ev miner_uids responses)
  = map row_event (round_rows ev miner_uids responses)
  /\ minerUids (collect ev miner_uids responses)
     = map row_uid (round_rows ev miner_uids responses)
  /\ answers (collect ev miner_uids responses)
     = map row_answer (round_rows ev miner_uids responses)
  /\ details (collect ev miner_uids responses)
     = map row_detail (round_rows ev miner_uids responses).
Proof.
  exact (response_fold (zip miner_uids responses) no_columns).
Qed.

Lemma round_rows_length (miner_uids : list nat) (responses : list Response) :
  length (round_rows ev miner_uids responses)
  = sum_list (map (fun pair : nat * Response => size (resp_events (snd pair)))
                  (zip miner_uids responses)).
Proof.
  unfold round_rows.
  induction (zip miner_uids responses) as [| [uid resp] pairs IH];
    [reflexivity |].
  cbn [map concat sum_list sum_list_with].
  rewrite length_app, length_map, length_map_to_list, IH. reflexivity.
Qed.

End CollectColumns.

Section ForwardLoopClaims.

Lemma detail_of_cases (ev : EventProvider) (pe : option ProviderEvent)
    (ans : option R) :
  (detail_of ev pe ans = "valid"%string
   <-> exists (e : ProviderEvent) (a : R) (integration : ProviderIntegration),
         pe = Some e /\ ans = Some a
         /\ integrations ev (market_type e) = Some integration
         /\ available_for_submission integration e = true)
  /\ (detail_of ev pe ans = "non-registered-event"%string <-> pe = None)
  /\ (detail_of ev pe ans = "no-prediction"%string
      <-> exists e : ProviderEvent, pe = Some e /\ ans = None).
Proof.
  unfold detail_of.
  destruct pe as [e |]; [destruct ans as [a |];
    [destruct (integrations ev (market_type e)) as [integration |] eqn:Hint;
       [destruct (available_for_submission integration e) eqn:Hopen |] |] |].
  all: split; [| split]; split; try discriminate; try reflexivity;
    try (intros;
         repeat match goal with
                | H : exists _, _ |- _ => destruct H
                | H : _ /\ _ |- _ => destruct H
                end;
         congruence);
    eauto 10.
Qed.




End ForwardLoopClaims.

(* ===================================================================== *)
(** * The export of interval statistics *)
(* ===================================================================== *)

Import IntervalStats.
Import Stdlib.Strings.Ascii.

Section StatsExport.

Variable w : StatsWorld.

Lemma send_chunks_all (chunks : list (list Metric)) :
  forallb (send_returns w) chunks = true ->
  send_chunks w chunks = (map SendIntervalData chunks, true).
Proof.
  induction chunks as [| c chunks IH]; cbn [forallb send_chunks map];
    intros H; [reflexivity |].
  apply andb_true_iff in H. destruct H as [Hc Hrest].
  rewrite Hc, (IH Hrest). reflexivity.
Qed.

Lemma send_chunks_failing (before after : list (list Metric))
    (failing : list Metric) :
  forallb (send_returns w) before = true ->
  send_returns w failing = false ->
  send_chunks w (before ++ failing :: after)
  = (map SendIntervalData (before ++ [failing]), false).
Proof.
  intros Hbefore Hfail.
  induction before as [| c before IH]; cbn [app send_chunks map].
  - rewrite Hfail. reflexivity.
  - cbn [forallb] in Hbefore. apply andb_true_iff in Hbefore.
    destruct Hbefore as [Hc Hrest]. rewrite Hc, (IH Hrest). reflexivity.
Qed.

Lemma send_interval_stats_eq (now : datetime) :
  send_interval_stats w now
  = GetNonExported (fst (export_range now)) (snd (export_range now))
    :: (if (0 <? length (non_exported w (fst (export_range now))
                           (snd (export_range now))))%nat
        then
          let result :=
            send_chunks w
              (split_chunks w
                 (map metric_of
                    (non_exported w (fst (export_range now))
                       (snd (export_range now)))) 15000) in
          if snd result
          then fst result
               ++ [Sleep 4;
                   MarkExported (fst (export_range now))
                     (snd (export_range now))]
          else fst result
        else []).
Proof.
  unfold send_interval_stats.
  destruct (export_range now) as [b e]. cbn [fst snd].
  rewrite length_map.
  destruct (0 <? _)%nat; [| reflexivity].
  destruct (send_chunks w _) as [calls finished]. reflexivity.
Qed.

End StatsExport.

Section StatsExportClaims.

(** The range of the statistics export: both ends are interval starts, the
    range spans 19 intervals, and its end is the start of the interval
    before the current one, so it never reaches the interval the clock is
    in. *)
Theorem export_range_spec (now : datetime) :
  fst (export_range now) mod 240 = 0
  /\ snd (export_range now) mod 240 = 0
  /\ snd (export_range now) - fst (export_range now) = 19 * 240
  /\ snd (export_range now) + 240 = get_interval_start_minutes now
  /\ snd (export_range now) + 240 <= minutes_since_epoch now.
Proof.
  unfold export_range. cbn [fst snd].
  set (m := minutes_since_epoch now).
  fold (interval_start m).
  pose proof (interval_start_multiple m) as Hmul.
  pose proof (interval_start_idempotent_bounds_aux m) as Hb.
  change CLUSTERED_SUBMISSIONS_INTERVAL_MINUTES with 240 in *.
  split; [| split; [| split; [| split]]].
  - replace (interval_start m - 240 * 20) with (interval_start m + (-20) * 240)
      by ring.
    rewrite Z_mod_plus_full. exact Hmul.
  - replace (interval_start m - 240) with (interval_start m + (-1) * 240)
      by ring.
    rewrite Z_mod_plus_full. exact Hmul.
  - ring.
  - rewrite get_interval_start_minutes_eq. fold m. ring.
  - lia.
Qed.

(** The statistics export marks its range as exported only after every
    chunk has been handed to [send_interval_data] without an exception:
    then the chunks are sent in order, followed by a sleep of 4 seconds and
    one mark of the range that was queried.  With no unexported row nothing
    is sent or marked.  When the sending of a chunk raises, the later
    chunks are not sent and nothing is marked. *)
Theorem send_interval_stats_marks (w : StatsWorld) (now : datetime) :
  let b := fst (export_range now) in
  let e := snd (export_range now) in
  let rows := non_exported w b e in
  let chunks := split_chunks w (map metric_of rows) 15000 in
  (rows = [] -> send_interval_stats w now = [GetNonExported b e])
  /\ (rows <> [] ->
      forallb (send_returns w) chunks = true ->
      send_interval_stats w now
      = GetNonExported b e
        :: map SendIntervalData chunks ++ [Sleep 4; MarkExported b e])
  /\ (forall (before after : list (list Metric)) (failing : list Metric),
        rows <> [] ->
        chunks = before ++ failing :: after ->
        forallb (send_returns w) before = true ->
        send_returns w failing = false ->
        send_interval_stats w now
        = GetNonExported b e
          :: map SendIntervalData (before ++ [failing])).
Proof.
  intros b e rows chunks.
  rewrite send_interval_stats_eq. fold b e. fold rows. fold chunks.
  split; [| split].
  - intros Hnil. rewrite Hnil. reflexivity.
  - intros Hne Hall.
    destruct rows as [| row rows']; [congruence |].
    cbn [length Nat.ltb Nat.leb].
    rewrite (send_chunks_all w chunks Hall). reflexivity.
  - intros before after failing Hne Hchunks Hbefore Hfail.
    destruct rows as [| row rows']; [congruence |].
    cbn [length Nat.ltb Nat.leb].
    rewrite Hchunks, (send_chunks_failing w before after failing Hbefore Hfail).
    reflexivity.
Qed.

Lemma before_dash_key (market id : string) :
  (forall c : Ascii.ascii,
      In c (list_ascii_of_string market) -> c <> "-"%char) ->
  before_dash (market ++ "-" ++ id) = market.
Proof.
  induction market as [| c market IH]; intros Hno.
  - reflexivity.
  - change (String c market ++ "-" ++ id)%string
      with (String c (market ++ "-" ++ id))%string.
    cbn [before_dash].
    assert (Ascii.eqb c "-" = false) as ->.
    { apply Ascii.eqb_neq. apply Hno. left. reflexivity. }
    f_equal. apply IH. intros c' Hin. apply Hno. right. exact Hin.
Qed.

(** The market type survives the round trip through the store: for a row
    filed under the key that [make_predictions_synapse] builds for an
    event, and without a market type in its metadata, the statistics export
    reports the market type of the request entry, provided that market type
    contains no dash (the event id may contain dashes). *)
Theorem stats_market_type_roundtrip (event : Dispatcher.EventRow)
    (row : PredictionRow) :
  (forall c : Ascii.ascii,
      In c (list_ascii_of_string
              (Dispatcher.ep_market_type (compiled_entry event))) ->
      c <> "-"%char) ->
  stat_unique_event_id row = compiled_key event ->
  stat_metadata row = None \/ stat_metadata row = Some None ->
  metric_market_type (metric_of row)
  = Dispatcher.ep_market_type (compiled_entry event).
Proof.
  intros Hno Hid Hmeta. unfold metric_of, metric_market_type.
  rewrite Hid. unfold compiled_key.
  rewrite before_dash_key by exact Hno.
  destruct Hmeta as [-> | ->]; reflexivity.
Qed.

(** The open event of the scenario, of market type [ifgames]. *)
Lemma stats_market_type_roundtrip_case :
  metric_market_type
    (metric_of {| stat_metadata := None;
                  stat_unique_event_id := compiled_key Scenario.open_row;
                  stat_uid := 0;
                  stat_interval_minutes := 240;
                  stat_agg_prediction := None;
                  stat_count := 1 |})
  = Dispatcher.ep_market_type (compiled_entry Scenario.open_row).
Proof.
  apply (stats_market_type_roundtrip Scenario.open_row).
  - intros c Hin. cbn in Hin.
    repeat (destruct Hin as [<- | Hin]; [discriminate |]). destruct Hin.
  - reflexivity.
  - left. reflexivity.
Defined.

End StatsExportClaims.

(* ===================================================================== *)
(** * The export of scores *)
(* ===================================================================== *)

Import ScoreExport.

Section ExportBody.

Lemma index_of_Some (x : string) (l : list string) (i : nat) :
  index_of x l = Some i ->
  l !! i = Some x /\ (forall j : nat, (j < i)%nat -> l !! j <> Some x).
Proof.
  revert i. induction l as [| y l IH]; intros i H; [discriminate |].
  cbn [index_of] in H. case_bool_decide as Hy.
  - injection H as <-. subst y. split; [reflexivity |]. intros j Hj. lia.
  - destruct (index_of x l) as [i' |]; [| discriminate].
    cbn in H. injection H as <-.
    destruct (IH i' eq_refl) as [Hi Hmin]. split; [exact Hi |].
    intros [| j] Hj; cbn; [congruence |]. apply Hmin. lia.
Qed.

Lemma index_of_None (x : string) (l : list string) :
  index_of x l = None <-> x ∉ l.
Proof.
  induction l as [| y l IH]; cbn [index_of].
  - split; [intros _; apply not_elem_of_nil | reflexivity].
  - case_bool_decide as Hy.
    + subst y. split; [discriminate |]. intros H. exfalso.
      apply H, list_elem_of_here.
    + rewrite not_elem_of_cons, <- IH.
      destruct (index_of x l); cbn; split; try discriminate; try tauto.
      * intros [_ H]. discriminate.
      * intros _. split; [congruence | reflexivity].
Qed.

Lemma result_of_None (w : ExportWorld) (p_event : ExportedEvent)
    (v_uid miner_uid : nat) (score effective : R) :
  result_of w p_event v_uid (miner_uid, score, effective) = None
  <-> answer (exp_event p_event) = None
      \/ (length (hotkeys w) <= miner_uid)%nat.
Proof.
  unfold result_of.
  destruct (answer (exp_event p_event)) as [y |]; cbn.
  - destruct (hotkeys w !! miner_uid) as [hk |] eqn:Hhk; cbn.
    + apply lookup_lt_Some in Hhk. split; [discriminate |].
      intros [H | H]; [discriminate | lia].
    + apply lookup_ge_None in Hhk. split; auto.
  - split; auto.
Qed.

Lemma result_of_Some (w : ExportWorld) (p_event : ExportedEvent)
    (v_uid miner_uid : nat) (score effective : R) (r : Result) :
  result_of w p_event v_uid (miner_uid, score, effective) = Some r ->
  res_miner_uid r = miner_uid
  /\ res_miner_score r = score
  /\ res_miner_effective_score r = effective
  /\ hotkeys w !! miner_uid = Some (res_miner_hotkey r)
  /\ answer (exp_event p_event) = Some (res_answer r)
  /\ res_validator_uid r = v_uid
  /\ res_validator_hotkey r = own_hotkey w
  /\ res_event_id r = event_id (exp_event p_event).
Proof.
  unfold result_of.
  destruct (answer (exp_event p_event)) as [y |]; [| discriminate].
  destruct (hotkeys w !! miner_uid) as [hk |]; [| discriminate].
  cbn. intros [= <-]. cbn. auto 10.
Qed.

End ExportBody.

Section ExportClaims.

(** The export marks the event as exported exactly when it is not run
    under pytest, the body could be built, and the server answered the
    request with the status 200.  Under pytest, or when building the body
    raises, nothing is posted; a request is posted at most once, with the
    body that was built; and the export sleeps one second after every
    answered request, whatever the status. *)
Theorem export_scores_marks (w : ExportWorld) (p_event : ExportedEvent)
    (miner_score_data : list (nat * R * R)) :
  (MarkEventAsExported p_event ∈ export_scores w p_event miner_score_data
   <-> env_is_pytest w = false
       /\ exists results : list Result,
            build_results w p_event miner_score_data = Some results
            /\ post_status w results = Some 200)
  /\ (env_is_pytest w = true
      \/ build_results w p_event miner_score_data = None ->
      export_scores w p_event miner_score_data = [])
  /\ (forall results : list Result,
        env_is_pytest w = false ->
        build_results w p_event miner_score_data = Some results ->
        exists rest : list ExportCall,
          export_scores w p_event miner_score_data = Post results :: rest
          /\ (forall body : list Result, Post body ∉ rest)
          /\ (forall status_code : Z,
                post_status w results = Some status_code ->
                last rest = Some (Sleep 1))
          /\ (post_status w results = None -> rest = [])).
Proof.
  unfold export_scores.
  destruct (env_is_pytest w) eqn:Hpy; cbn [negb].
  { split; [| split].
    - split; [intros H; apply elem_of_nil in H; contradiction |].
      intros [H _]. discriminate.
    - reflexivity.
    - intros results H. discriminate. }
  destruct (build_results w p_event miner_score_data) as [results |] eqn:Hb.
  2:{ split; [| split].
      - split; [intros H; apply elem_of_nil in H; contradiction |].
        intros [_ [results [H _]]]. discriminate.
      - reflexivity.
      - intros results _ H. discriminate. }
  split; [| split].
  - destruct (post_status w results) as [status |] eqn:Hpost.
    + destruct (status =? 200) eqn:Hst; cbn [negb app].
      * apply Z.eqb_eq in Hst. subst status. split.
        -- intros _. split; [reflexivity |]. exists results. auto.
        -- intros _. apply list_elem_of_further, list_elem_of_here.
      * apply Z.eqb_neq in Hst. split.
        -- intros H. apply elem_of_cons in H. destruct H as [H | H];
             [discriminate |].
           apply elem_of_cons in H. destruct H as [H | H]; [discriminate |].
           apply elem_of_nil in H. contradiction.
        -- intros [_ [results' [[= <-] H]]]. congruence.
    + split.
      * intros H. apply elem_of_cons in H. destruct H as [H | H];
          [discriminate |]. apply elem_of_nil in H. contradiction.
      * intros [_ [results' [[= <-] H]]]. congruence.
  - intros [H | H]; discriminate.
  - intros results' _ [= <-].
    eexists. split; [reflexivity |].
    destruct (post_status w results) as [status |].
    + destruct (negb (status =? 200)); cbn [app].
      * split; [| split].
        -- intros body H. apply elem_of_cons in H.
           destruct H as [H | H]; [discriminate |].
           apply elem_of_nil in H. contradiction.
        -- intros sc _. reflexivity.
        -- discriminate.
      * split; [| split].
        -- intros body H. apply elem_of_cons in H.
           destruct H as [H | H]; [discriminate |].
           apply elem_of_cons in H. destruct H as [H | H]; [discriminate |].
           apply elem_of_nil in H. contradiction.
        -- intros sc _. reflexivity.
        -- discriminate.
    + split; [| split].
      * intros body H. apply elem_of_nil in H. contradiction.
      * intros sc H. discriminate.
      * reflexivity.
Qed.

(** Building the body raises exactly when the hotkey of the wallet is not
    in the metagraph, or when some peer to export has a slot beyond the
    hotkeys of the metagraph or the event has no answer.  Otherwise the
    body has one result per peer, in the order given, with that peer's
    slot, hotkey, raw score ([miner_score]) and normalised score
    ([miner_effective_score]), the answer of the event, and as validator
    slot the first position of the wallet's hotkey in the metagraph. *)
Theorem build_results_spec (w : ExportWorld) (p_event : ExportedEvent)
    (miner_score_data : list (nat * R * R)) :
  match build_results w p_event miner_score_data with
  | None =>
      own_hotkey w ∉ hotkeys w
      \/ exists (miner_uid : nat) (score effective : R),
           (miner_uid, score, effective) ∈ miner_score_data
           /\ (answer (exp_event p_event) = None
               \/ (length (hotkeys w) <= miner_uid)%nat)
  | Some results =>
      length results = length miner_score_data
      /\ exists v_uid : nat,
           hotkeys w !! v_uid = Some (own_hotkey w)
           /\ (forall j : nat,
                 (j < v_uid)%nat -> hotkeys w !! j <> Some (own_hotkey w))
           /\ forall (k miner_uid : nat) (score effective : R),
                miner_score_data !! k = Some (miner_uid, score, effective) ->
                exists r : Result,
                  results !! k = Some r
                  /\ res_miner_uid r = miner_uid
                  /\ res_miner_score r = score
                  /\ res_miner_effective_score r = effective
                  /\ hotkeys w !! miner_uid = Some (res_miner_hotkey r)
                  /\ answer (exp_event p_event) = Some (res_answer r)
                  /\ res_validator_uid r = v_uid
                  /\ res_validator_hotkey r = own_hotkey w
                  /\ res_event_id r = event_id (exp_event p_event)
  end.
Proof.
  unfold build_results.
  destruct (index_of (own_hotkey w) (hotkeys w)) as [v_uid |] eqn:Hidx; cbn.
  2:{ left. apply index_of_None, Hidx. }
  destruct (mapM _ miner_score_data) as [results |] eqn:Hmap.
  - apply mapM_Some in Hmap.
    split; [symmetry; eapply Forall2_length; exact Hmap |].
    destruct (index_of_Some _ _ _ Hidx) as [Hown Hfirst].
    exists v_uid. split; [exact Hown |]. split; [exact Hfirst |].
    intros k miner_uid score effective Hk.
    destruct (Forall2_lookup_l _ _ _ _ _ Hmap Hk) as [r [Hr Hres]].
    exists r. split; [exact Hr |].
    apply (result_of_Some w p_event v_uid miner_uid score effective r Hres).
  - right. apply mapM_None, Exists_exists in Hmap.
    destruct Hmap as [[[miner_uid score] effective] [Hin Hnone]].
    exists miner_uid, score, effective. split; [exact Hin |].
    apply (proj1 (result_of_None w p_event v_uid miner_uid score effective)).
    exact Hnone.
Qed.

End ExportClaims.

Section ExportWitness.

Local Open Scope R_scope.

(** The accepting world of the cases marks the event. *)
Lemma export_scores_marks_case :
  MarkEventAsExported Cases.exported_event
  ∈ export_scores Cases.accepting_world Cases.exported_event
      [(0%nat, 1 / 2, 1)].
Proof.
  apply (proj2 (proj1 (export_scores_marks Cases.accepting_world
                         Cases.exported_event [(0%nat, 1 / 2, 1)]))).
  split; [reflexivity |].
  eexists. split; reflexivity.
Defined.

End ExportWitness.

(* ===================================================================== *)
(** * Rounds of [forward] run back to back *)
(* ===================================================================== *)

Section ForwardRounds.

Local Open Scope R_scope.

Lemma forward_loop_cons (r : Round) (rs : list Round) (st : ForwardState) :
  forward_loop (r :: rs) st
  = (fst (forward_loop rs (fst (forward r st))),
     snd (forward r st) ++ snd (forward_loop rs (fst (forward r st)))).
Proof.
  cbn [forward_loop].
  destruct (forward r st) as [st1 acts1]. cbn [fst snd].
  destruct (forward_loop rs st1) as [st2 acts2]. reflexivity.
Qed.

Lemma forward_state (r : Round) (st : ForwardState) :
  Forward.blocktime (fst (forward r st)) = (Forward.blocktime st + 1)%Z
  /\ clock (fst (forward r st)) = last_query_time (fst (forward r st))
  /\ query_times (snd (forward r st)) = [clock st + before_query r]
  /\ (pytest r = false ->
      last_query_time st + 300 <= last_query_time (fst (forward r st)))
  /\ clock st + before_query r + after_query r
     <= last_query_time (fst (forward r st)).
Proof.
  unfold forward, MIN_TIME_BETWEEN_QUERY_MINERS.
  destruct (Rlt_dec _ _) as [Hlt | Hge]; [destruct (pytest r) |]; cbn.
  all: repeat split; try reflexivity; try (intros; discriminate);
    try (intros; lra).
Qed.

Lemma forward_actions (r : Round) (st : ForwardState) :
  last_query_time st <= clock st ->
  0 <= before_query r -> 0 <= after_query r ->
  Forall (fun a => match a with
                   | Forward.Sleep t d => 0 < d <= 300 /\ pytest r = false
                   | QueryMiners t => clock st <= t
                   end) (snd (forward r st)).
Proof.
  intros Hclock Hb Ha.
  unfold forward, MIN_TIME_BETWEEN_QUERY_MINERS.
  destruct (Rlt_dec _ _) as [Hlt | Hge]; [destruct (pytest r) |]; cbn.
  all: repeat (apply Forall_cons; split); try apply Forall_nil;
    try lra; try (split; [lra | reflexivity]).
Qed.

Lemma query_times_app (acts1 acts2 : list Action) :
  query_times (acts1 ++ acts2) = query_times acts1 ++ query_times acts2.
Proof. unfold query_times. apply omap_app. Qed.

End ForwardRounds.

Section ForwardRoundsClaims.

Local Open Scope R_scope.



(** When the clock is not behind [last_query_time] at the start (as after
    [__init__]) and no stretch of a round takes negative time, every sleep
    of every round lasts more than 0 and at most 300 seconds, rounds run
    under pytest never sleep, and no query is issued before the clock
    reading at the start. *)
Theorem forward_loop_sleeps (rs : list Round) (st : ForwardState) :
  last_query_time st <= clock st ->
  Forall (fun r => 0 <= before_query r /\ 0 <= after_query r) rs ->
  Forall (fun a => match a with
                   | Forward.Sleep t d => 0 < d <= 300
                   | QueryMiners t => clock st <= t
                   end) (snd (forward_loop rs st))
  /\ (Forall (fun r => pytest r = true) rs ->
      Forall (fun a => match a with
                       | Forward.Sleep _ _ => False
                       | QueryMiners _ => True
                       end) (snd (forward_loop rs st))).
Proof.
  intros Hclock Hall. revert st Hclock.
  induction Hall as [| r rs [Hb Ha] _ IH]; intros st Hclock.
  - cbn. split; [constructor | intros _; constructor].
  - rewrite forward_loop_cons. cbn [snd].
    destruct (forward_state r st) as [_ [Hc [_ [_ Hend]]]].
    pose proof (forward_actions r st Hclock Hb Ha) as Hacts.
    destruct (IH (fst (forward r st))) as [IH1 IH2]; [lra |].
    split.
    + apply Forall_app. split.
      * eapply Forall_impl; [exact Hacts |].
        intros [t | t d]; cbn; tauto.
      * eapply Forall_impl; [exact IH1 |].
        intros [t | t d]; cbn; [| tauto]. lra.
    + intros Hpy. apply Forall_cons in Hpy. destruct Hpy as [Hr Hpy].
      apply Forall_app. split; [| apply IH2, Hpy].
      eapply Forall_impl; [exact Hacts |].
      intros [t | t d]; cbn; [tauto |]. intros [_ H]. congruence.
Qed.

(** Two rounds of the scenario, started when the previous round ended. *)
Lemma forward_loop_sleeps_scenario :
  Forall (fun a => match a with
                   | Forward.Sleep t d => 0 < d <= 300
                   | QueryMiners t => clock Scenario.just_finished <= t
                   end)
    (snd (forward_loop [Scenario.slow_start_round; Scenario.prompt_round]
            Scenario.just_finished)).
Proof.
  apply (forward_loop_sleeps [Scenario.slow_start_round; Scenario.prompt_round]
           Scenario.just_finished).
  - cbn. lra.
  - repeat (apply Forall_cons; split; [cbn; lra |]). apply Forall_nil. exact I.
Defined.

End ForwardRoundsClaims.

Section HookExport.

Local Open Scope R_scope.

Lemma hook_export_data (v : Validator) (pe : ProviderEvent) (y : R) :
  status pe = SETTLED ->
  answer pe = Some y ->
  get_event_predictions v pe <> ∅ ->
  on_event_update v pe
  = (true,
     [UpdateScores
        (normalize_l1 (sharpen (raw_scores v pe y (get_event_predictions v pe))))
        (seq 0 (metagraph_n v));
      ExportScores pe
        (zip (zip (seq 0 (metagraph_n v))
                  (raw_scores v pe y (get_event_predictions v pe)))
             (normalize_l1
                (sharpen (raw_scores v pe y (get_event_predictions v pe)))))]).
Proof.
  intros Hst Hans Hne. unfold on_event_update. rewrite Hst, Hans.
  rewrite bool_decide_eq_false_2 by assumption. reflexivity.
Qed.

Lemma hook_data_lookup (n : nat) (raw norm : list R) (k : nat) :
  length raw = n -> length norm = n -> (k < n)%nat ->
  exists s e : R, zip (zip (seq 0 n) raw) norm !! k = Some (k, s, e).
Proof.
  intros Hraw Hnorm Hk.
  destruct (lookup_lt_is_Some_2 raw k ltac:(lia)) as [s Hs].
  destruct (lookup_lt_is_Some_2 norm k ltac:(lia)) as [e He].
  exists s, e. rewrite !lookup_zip_with, lookup_seq_lt by exact Hk.
  cbn. rewrite Hs. cbn. rewrite He. reflexivity.
Qed.

Lemma hook_data_uid (n : nat) (raw norm : list R) (uid : nat) (s e : R) :
  (uid, s, e) ∈ zip (zip (seq 0 n) raw) norm -> (uid < n)%nat.
Proof.
  intros Hin. apply elem_of_zip_l, elem_of_zip_l in Hin.
  apply elem_of_seq in Hin. lia.
Qed.

End HookExport.

Section HookExportClaim.

Local Open Scope R_scope.

(** The hook and the export fit together: for a settled event with an
    answer and at least one submission, when the metagraph has one hotkey
    per slot and contains the hotkey of the wallet, building the body from
    the data the hook hands to the export never raises, and the body has
    one result per slot of the metagraph, in slot order. *)
Theorem hook_export_builds (v : Validator) (w : ExportWorld)
    (p_event : ExportedEvent) (y : R) :
  status (exp_event p_event) = SETTLED ->
  answer (exp_event p_event) = Some y ->
  get_event_predictions v (exp_event p_event) <> ∅ ->
  length (hotkeys w) = metagraph_n v ->
  own_hotkey w ∈ hotkeys w ->
  exists (scores : list R) (data : list (nat * R * R))
         (results : list Result),
    on_event_update v (exp_event p_event)
    = (true, [UpdateScores scores (seq 0 (metagraph_n v));
              ExportScores (exp_event p_event) data])
    /\ build_results w p_event data = Some results
    /\ length results = metagraph_n v
    /\ (forall k : nat,
          (k < metagraph_n v)%nat ->
          exists r : Result,
            results !! k = Some r
            /\ res_miner_uid r = k
            /\ hotkeys w !! k = Some (res_miner_hotkey r)
            /\ res_answer r = y).
Proof.
  intros Hst Hans Hne Hlen Hown.
  set (raw := raw_scores v (exp_event p_event) y
                (get_event_predictions v (exp_event p_event))).
  set (norm := normalize_l1 (sharpen raw)).
  set (data := zip (zip (seq 0 (metagraph_n v)) raw) norm).
  assert (length raw = metagraph_n v) as Hraw.
  { unfold raw, raw_scores. rewrite length_map. apply length_seq. }
  assert (length norm = metagraph_n v) as Hnorm.
  { unfold norm. rewrite normalize_l1_length, sharpen_length. exact Hraw. }
  assert (length data = metagraph_n v) as Hdata.
  { unfold data. rewrite !length_zip_with, length_seq. lia. }
  destruct (index_of (own_hotkey w) (hotkeys w)) as [v_uid |] eqn:Hidx.
  2:{ apply index_of_None in Hidx. contradiction. }
  assert (is_Some (mapM (result_of w p_event v_uid) data)) as [results Hres].
  { apply mapM_is_Some, Forall_forall. intros [[uid s] e] Hin.
    apply hook_data_uid in Hin. unfold compose, result_of. rewrite Hans.
    destruct (lookup_lt_is_Some_2 (hotkeys w) uid ltac:(lia)) as [hk ->].
    cbn. eauto. }
  exists norm, data, results.
  split; [apply (hook_export_data v (exp_event p_event) y Hst Hans Hne) |].
  split; [unfold build_results; rewrite Hidx; exact Hres |].
  pose proof Hres as Hall. apply mapM_Some in Hall.
  split; [rewrite <- (Forall2_length _ _ _ Hall); exact Hdata |].
  intros k Hk.
  destruct (hook_data_lookup (metagraph_n v) raw norm k Hraw Hnorm Hk)
    as [s [e Hke]].
  fold data in Hke.
  destruct (Forall2_lookup_l _ _ _ _ _ Hall Hke) as [r [Hr Hrk]].
  exists r. split; [exact Hr |].
  destruct (result_of_Some w p_event v_uid k s e r Hrk)
    as [H1 [_ [_ [H4 [H5 _]]]]].
  split; [exact H1 |]. split; [exact H4 |]. congruence.
Qed.

(** The scenario, exported by the validator in slot 1. *)
Lemma hook_export_builds_scenario :
  exists (scores : list R) (data : list (nat * R * R))
         (results : list Result),
    on_event_update Scenario.validator (exp_event Cases.exported_event)
    = (true, [UpdateScores scores (seq 0 (metagraph_n Scenario.validator));
              ExportScores (exp_event Cases.exported_event) data])
    /\ build_results Cases.scenario_world Cases.exported_event data
       = Some results
    /\ length results = metagraph_n Scenario.validator
    /\ (forall k : nat,
          (k < metagraph_n Scenario.validator)%nat ->
          exists r : Result,
            results !! k = Some r
            /\ res_miner_uid r = k
            /\ hotkeys Cases.scenario_world !! k = Some (res_miner_hotkey r)
            /\ res_answer r = 1).
Proof.
  apply (hook_export_builds Scenario.validator Cases.scenario_world
           Cases.exported_event 1).
  - reflexivity.
  - reflexivity.
  - intros Hempty.
    assert (Scenario.predictions !! 0%nat = None) as Hnone
      by (change (get_event_predictions Scenario.validator
                    (exp_event Cases.exported_event))
            with Scenario.predictions in Hempty;
          rewrite Hempty; apply lookup_empty).
    discriminate Hnone.
  - reflexivity.
  - apply list_elem_of_further, list_elem_of_here.
Defined.

End HookExportClaim.

Section WeightedAverage.

Local Open Scope R_scope.

(** The loop of the general branch computes a weighted average: for a peer
    that is not dismissed before the loop and a non-empty window, the raw
    score is the sum over the intervals of the window of weight times
    Brier-complement (0 for an interval without an answer), divided by the
    sum of the weights of all the intervals of the window, which is
    positive. *)
Theorem general_score_weighted_average (y : R) (w : Window)
    (registered reg : datetime) (pi : option (gmap Z IntervalData)) :
  window_intervals w <> [] ->
  (registered <= reg)%Z \/ py_not pi = false ->
  0 < Rsum (map (interval_weight w) (window_intervals w))
  /\ general_score y w registered reg pi
     = Rsum (map (fun i =>
                    match interval_answer reg pi i with
                    | Some a =>
                        interval_weight w i * (1 - (clamp a - y) ^ 2)
                    | None => 0
                    end) (window_intervals w))
       / Rsum (map (interval_weight w) (window_intervals w)).
Proof.
  intros Hne Hgo.
  pose proof (weights_sum_pos w (window_intervals w) Hne) as Hpos.
  split; [exact Hpos |].
  rewrite general_score_loop.
  - destruct (Rlt_dec _ _) as [_ | Hn]; [| lra].
    rewrite Rplus_0_l. reflexivity.
  - destruct Hgo as [Hreg | Hpi].
    + rewrite bool_decide_eq_false_2 by lia. reflexivity.
    + rewrite Hpi. apply andb_false_r.
Qed.

(** Peer 0 of the scenario. *)
Lemma general_score_weighted_average_case :
  0 < Rsum (map (interval_weight Cases.window)
              (window_intervals Cases.window)).
Proof.
  apply (general_score_weighted_average 1 Cases.window (epoch_plus_minutes 0)
           (epoch_plus_minutes (-1000)) (Some Scenario.peer_a)).
  - discriminate.
  - right. reflexivity.
Defined.

End WeightedAverage.
